(** * AIJobs: the filtering-and-sorting engine of [src/App.js]

    A shallow embedding of [applyFiltersAndSort] (App.js, lines 99-173) and
    the properties of it that the specification states.

    The JavaScript function works on arrays of references to job objects:
    it copies the input array, replaces the copy by the result of up to six
    [Array.prototype.filter] calls and finally sorts the last array in
    place.  The embedding keeps that shape: a heap of job objects and of
    arrays, a state-and-exception monad over it, and one definition per
    statement of the function. *)

From Stdlib Require Import ZArith String Ascii List Bool Lia.
From stdpp Require Import gmap strings list fin_maps sorting.

Local Open Scope Z_scope.

(** ** JavaScript numbers

    The only numbers the engine computes are the results of [parseInt] on a
    run of decimal digits and differences of two such results.  They are
    IEEE-754 doubles whose value is an integer, an infinity or NaN. *)

Inductive number : Type :=
  | NaN
  | Fin (z : Z)
  | PosInf
  | NegInf.

Global Instance number_eq_dec : EqDecision number.
Proof. solve_decision. Defined.

(** Round-to-nearest, ties-to-even, of a non-negative integer to a double:
    integers below 2^53 are exact; above, 53 significant bits are kept; a
    result of 2^1024 or more overflows to [Infinity]. *)
Definition to_double (n : Z) : number :=
  if n <? 2 ^ 53 then Fin n
  else
    let e := Z.log2 n - 52 in
    let q := Z.shiftr n e in
    let r := n - Z.shiftl q e in
    let half := 2 ^ (e - 1) in
    let q' := if r <? half then q
              else if half <? r then q + 1
              else if Z.even q then q else q + 1 in
    let v := Z.shiftl q' e in
    if 2 ^ 1024 <=? v then PosInf else Fin v.

Definition js_neg (a : number) : number :=
  match a with
  | NaN => NaN
  | Fin z => Fin (- z)
  | PosInf => NegInf
  | NegInf => PosInf
  end.

Definition round (z : Z) : number :=
  if z <? 0 then js_neg (to_double (- z)) else to_double z.

(** [a - b] *)
Definition js_sub (a b : number) : number :=
  match a, b with
  | NaN, _ | _, NaN => NaN
  | Fin x, Fin y => round (x - y)
  | PosInf, PosInf | NegInf, NegInf => NaN
  | PosInf, _ | _, NegInf => PosInf
  | NegInf, _ | _, PosInf => NegInf
  end.

(** [a < b]; every comparison with NaN is false. *)
Definition js_lt (a b : number) : bool :=
  match a, b with
  | NaN, _ | _, NaN => false
  | Fin x, Fin y => x <? y
  | NegInf, NegInf | PosInf, _ | _, NegInf => false
  | NegInf, _ | _, PosInf => true
  end.

(** [a <= b] *)
Definition js_le (a b : number) : bool :=
  match a, b with
  | NaN, _ | _, NaN => false
  | Fin x, Fin y => x <=? y
  | NegInf, _ | _, PosInf => true
  | PosInf, _ | _, NegInf => false
  end.

(** [a >= b] *)
Definition js_ge (a b : number) : bool := js_le b a.

(** ** Strings *)

(** A string is truthy iff it is not empty. *)
Definition truthy (s : string) : bool :=
  match s with
  | EmptyString => false
  | String _ _ => true
  end.

(** [s.includes(sub)] *)
Fixpoint includes (s sub : string) : bool :=
  String.prefix sub s ||
  match s with
  | EmptyString => false
  | String _ s' => includes s' sub
  end.

Definition is_digit (c : ascii) : bool :=
  let n := Z.of_N (N_of_ascii c) in (48 <=? n) && (n <=? 57).

Definition digit_value (c : ascii) : Z := Z.of_N (N_of_ascii c) - 48.

(** [s.replace(/[^0-9]/g, '')] *)
Fixpoint strip_non_digits (s : string) : string :=
  match s with
  | EmptyString => EmptyString
  | String c s' =>
      if is_digit c then String c (strip_non_digits s') else strip_non_digits s'
  end.

(** The leading run of decimal digits of a string, most significant first. *)
Fixpoint leading_digits (s : string) : list Z :=
  match s with
  | EmptyString => []
  | String c s' => if is_digit c then digit_value c :: leading_digits s' else []
  end.

Definition decimal (ds : list Z) : Z :=
  fold_left (fun acc d => 10 * acc + d) ds 0.

(** [parseInt(s)] for the strings the engine passes to it.  The argument is
    always the result of [strip_non_digits], so the white space, sign and
    [0x] prefix that [parseInt] accepts cannot occur: the number is the
    double nearest to the leading digit run, and NaN when there is none.
    (For a run of more than 20 significant digits ECMAScript lets an engine
    round the run with its later digits replaced by 0; the model rounds the
    run itself.) *)
Definition parseInt (s : string) : number :=
  match leading_digits s with
  | [] => NaN
  | ds => to_double (decimal ds)
  end.

(** ** The locale

    [String.prototype.toLowerCase] maps strings by the Unicode case tables
    and [String.prototype.localeCompare] orders them by the collation of
    the host's locale.  The engine is embedded over both. *)

Class Locale : Type := {
  toLowerCase : string -> string;
  localeCompare : string -> string -> Z
}.

(** ECMA-262 requires [localeCompare] to be a consistent comparator on the
    set of all strings (the conditions of [Array.prototype.sort]). *)
Class ConsistentComparator {A : Type} (cmp : A -> A -> Z) : Prop := {
  cmp_refl : forall a, cmp a a = 0;
  cmp_sym : forall a b, cmp a b = 0 -> cmp b a = 0;
  cmp_trans_eq : forall a b c, cmp a b = 0 -> cmp b c = 0 -> cmp a c = 0;
  cmp_trans_lt : forall a b c, cmp a b < 0 -> cmp b c < 0 -> cmp a c < 0;
  cmp_trans_gt : forall a b c, cmp a b > 0 -> cmp b c > 0 -> cmp a c > 0
}.

(** A locale to compute with: ASCII lower-casing and code-unit order. *)
Definition ascii_toLowerCase (c : ascii) : ascii :=
  let n := N_of_ascii c in
  if ((65 <=? n) && (n <=? 90))%N then ascii_of_N (n + 32) else c.

Fixpoint string_map (f : ascii -> ascii) (s : string) : string :=
  match s with
  | EmptyString => EmptyString
  | String c s' => String (f c) (string_map f s')
  end.

Definition codeUnitCompare (a b : string) : Z :=
  match String.compare a b with
  | Lt => -1
  | Eq => 0
  | Gt => 1
  end.

Definition asciiLocale : Locale := {|
  toLowerCase := string_map ascii_toLowerCase;
  localeCompare := codeUnitCompare
|}.

(** ** Data model *)

(** A job record as the JSON gives it: a missing property is [None]. *)
Module Job.
Record t : Type := Build {
  title : option string;
  description : option string;
  department : option string;
  companyName : option string;
  location : option string;
  remote : bool;
  salary : option string
}.
End Job.

(** The filter state ([selectedFilters] of the component). *)
Module Filters.
Record t : Type := Build {
  companies : option (list string);
  locations : option (list string);
  departments : option (list string);
  remote : bool;
  salary : option (Z * Z)
}.

(** The initial state of [selectedFilters] (App.js, lines 34-40). *)
Definition default : t := {|
  companies := Some [];
  locations := Some [];
  departments := Some [];
  remote := false;
  salary := Some (0, 500000)
|}.
End Filters.

(** ** Heap, exceptions and the monad of the engine *)

Abbreviation loc := positive.

(** Job objects and arrays live in the heap; an array holds references.  A
    reference that is not bound in [objects] stands for a [null] element
    ([undefined] elements, which [sort] moves to the end without comparing
    them, are not among the values of the model). *)
Record heap : Type := Heap {
  objects : gmap loc Job.t;
  arrays : gmap loc (list loc)
}.

Inductive error : Type := TypeError.

Inductive result (A : Type) : Type :=
  | Val (a : A)
  | Throw (e : error).
Arguments Val {A} a.
Arguments Throw {A} e.

(** A computation returns a value or throws, and leaves a heap in both
    cases. *)
Definition M (A : Type) : Type := heap -> result A * heap.

Definition ret {A} (a : A) : M A := fun h => (Val a, h).

Definition bind {A B} (m : M A) (k : A -> M B) : M B :=
  fun h =>
    match m h with
    | (Val a, h') => k a h'
    | (Throw e, h') => (Throw e, h')
    end.

Notation "'let*' x ':=' m 'in' k" := (bind m (fun x => k))
  (at level 10, x name, m at level 100, k at level 200).

(** A new array: the literal [[...]] or the result of [filter]. *)
Definition alloc (xs : list loc) : M loc :=
  fun h =>
    let a := fresh (dom (arrays h)) in
    (Val a, Heap (objects h) (<[a := xs]> (arrays h))).

(** [[...a]] *)
Definition spread (a : loc) : M loc :=
  fun h =>
    match arrays h !! a with
    | Some xs => alloc xs h
    | None => (Throw TypeError, h)
    end.

(** The elements kept by [filter]: the callback runs on each element in
    index order, and its first property access throws on a [null]
    element. *)
Fixpoint filter_elems (cb : Job.t -> result bool) (O : gmap loc Job.t)
    (xs : list loc) : result (list loc) :=
  match xs with
  | [] => Val []
  | l :: xs' =>
      match O !! l with
      | None => Throw TypeError
      | Some job =>
          match cb job with
          | Throw e => Throw e
          | Val b =>
              match filter_elems cb O xs' with
              | Throw e => Throw e
              | Val kept => Val (if b then l :: kept else kept)
              end
          end
      end
  end.

(** [a.filter(cb)]: a new array, [a] is left as it is. *)
Definition array_filter (cb : Job.t -> result bool) (a : loc) : M loc :=
  fun h =>
    match arrays h !! a with
    | None => (Throw TypeError, h)
    | Some xs =>
        match filter_elems cb (objects h) xs with
        | Throw e => (Throw e, h)
        | Val kept => alloc kept h
        end
    end.

(** ** [Array.prototype.sort]

    ECMAScript requires a stable sort and fixes the result whenever the
    comparator is consistent ([isort_unique] below); it is modelled by
    stable insertion sort: each element in turn is put before the first
    element of the sorted prefix that it is less than.  A comparator result
    [v] counts as "less" when [v < 0]; NaN counts as [+0].  With a
    comparator that is not consistent the order is left to the engine: the
    model then returns one of the permutations an engine may return, and
    order and stability are stated below for consistent comparators only. *)

Definition negative (v : number) : bool := js_lt v (Fin 0).

Section Sort.
Context {A : Type}.

Section Pure.
Variable lt : A -> A -> bool.

Fixpoint insert_by (x : A) (l : list A) : list A :=
  match l with
  | [] => [x]
  | y :: l' => if lt x y then x :: l else y :: insert_by x l'
  end.

Definition isort_from (acc l : list A) : list A :=
  fold_left (fun acc x => insert_by x acc) l acc.

Definition isort (l : list A) : list A := isort_from [] l.
End Pure.

Section Throwing.
Variable lt : A -> A -> result bool.

Fixpoint insertM (x : A) (l : list A) : result (list A) :=
  match l with
  | [] => Val [x]
  | y :: l' =>
      match lt x y with
      | Throw e => Throw e
      | Val true => Val (x :: l)
      | Val false =>
          match insertM x l' with
          | Throw e => Throw e
          | Val r => Val (y :: r)
          end
      end
  end.

Fixpoint sortM_from (acc l : list A) : result (list A) :=
  match l with
  | [] => Val acc
  | x :: l' =>
      match insertM x acc with
      | Throw e => Throw e
      | Val acc' => sortM_from acc' l'
      end
  end.

Definition sortM (l : list A) : result (list A) := sortM_from [] l.
End Throwing.
End Sort.

(** The comparator applied to two elements of the array; a property access
    on a [null] element throws. *)
Definition less_at (cmp : Job.t -> Job.t -> result number) (O : gmap loc Job.t)
    (x y : loc) : result bool :=
  match O !! x, O !! y with
  | Some a, Some b =>
      match cmp a b with
      | Val v => Val (negative v)
      | Throw e => Throw e
      end
  | _, _ => Throw TypeError
  end.

(** [a.sort(cmp)]: sorts [a] in place; when the comparator throws nothing
    is written back. *)
Definition array_sort (cmp : Job.t -> Job.t -> result number) (a : loc) : M loc :=
  fun h =>
    match arrays h !! a with
    | None => (Throw TypeError, h)
    | Some xs =>
        match sortM (less_at cmp (objects h)) xs with
        | Throw e => (Throw e, h)
        | Val sorted => (Val a, Heap (objects h) (<[a := sorted]> (arrays h)))
        end
    end.

(** ** The engine: [applyFiltersAndSort] (App.js, lines 99-173) *)

Section Engine.
Context {L : Locale}.

(** [x.includes(v)] on an array of strings; a missing property is equal to
    no string. *)
Definition array_includes (x : list string) (v : option string) : bool :=
  match v with
  | Some s => existsb (String.eqb s) x
  | None => false
  end.

(** [x?.length > 0] *)
Definition nonEmpty {A : Type} (x : option (list A)) : bool :=
  match x with
  | Some (_ :: _) => true
  | _ => false
  end.

(** [job.salary ? parseInt(job.salary.replace(/[^0-9]/g, '')) : 0], the
    expression of lines 142, 155, 156, 162 and 163. *)
Definition parsedSalary (job : Job.t) : number :=
  match Job.salary job with
  | Some s => if truthy s then parseInt (strip_non_digits s) else Fin 0
  | None => Fin 0
  end.

(** Lines 105-109: title, then description, then department; [||] stops at
    the first match, so a later property is read only when it is needed. *)
Definition searchPredicate (query : string) (job : Job.t) : result bool :=
  match Job.title job with
  | None => Throw TypeError
  | Some title =>
      if includes (toLowerCase title) query then Val true
      else
        match Job.description job with
        | None => Throw TypeError
        | Some description =>
            if includes (toLowerCase description) query then Val true
            else
              match Job.department job with
              | Some department =>
                  Val (truthy department && includes (toLowerCase department) query)
              | None => Val false
              end
        end
  end.

(** Line 114 *)
Definition companyPredicate (companies : list string) (job : Job.t) : result bool :=
  Val (array_includes companies (Job.companyName job)).

(** Lines 119-125 *)
Definition locationPredicate (locations : list string) (job : Job.t) : result bool :=
  match Job.location job with
  | None => Throw TypeError
  | Some location =>
      let jobLocation := toLowerCase location in
      Val (existsb
             (fun filterLocation =>
                let normalizedFilter := toLowerCase filterLocation in
                includes jobLocation normalizedFilter)
             locations)
  end.

(** Line 130 *)
Definition departmentPredicate (departments : list string) (job : Job.t) : result bool :=
  match Job.department job with
  | Some department =>
      Val (truthy department && array_includes departments (Some department))
  | None => Val false
  end.

(** Line 135 *)
Definition remotePredicate (job : Job.t) : result bool :=
  Val (Job.remote job).

(** Lines 141-144 *)
Definition salaryPredicate (minSalary maxSalary : Z) (job : Job.t) : result bool :=
  let salary := parsedSalary job in
  Val (js_ge salary (Fin minSalary) && js_le salary (Fin maxSalary)).

(** One [if (condition) { filteredJobs = filteredJobs.filter(predicate); }]
    statement: its condition and its callback. *)
Record stage : Type := Stage {
  active : bool;
  predicate : Job.t -> result bool
}.

Definition runStage (s : stage) (filteredJobs : loc) : M loc :=
  if active s then array_filter (predicate s) filteredJobs
  else ret filteredJobs.

(** Lines 103-110 *)
Definition searchStage (searchQuery : string) : stage :=
  let query := toLowerCase searchQuery in
  Stage (truthy searchQuery) (searchPredicate query).

(** Lines 113-115 *)
Definition companyStage (filters : Filters.t) : stage :=
  Stage (nonEmpty (Filters.companies filters))
        (companyPredicate (default [] (Filters.companies filters))).

(** Lines 118-126 *)
Definition locationStage (filters : Filters.t) : stage :=
  Stage (nonEmpty (Filters.locations filters))
        (locationPredicate (default [] (Filters.locations filters))).

(** Lines 129-131 *)
Definition departmentStage (filters : Filters.t) : stage :=
  Stage (nonEmpty (Filters.departments filters))
        (departmentPredicate (default [] (Filters.departments filters))).

(** Lines 134-136 *)
Definition remoteStage (filters : Filters.t) : stage :=
  Stage (Filters.remote filters) remotePredicate.

(** Lines 139-145: the filter runs when the lower bound is above 0 or the
    upper bound is below 500000. *)
Definition salaryStage (filters : Filters.t) : stage :=
  match Filters.salary filters with
  | Some (minSalary, maxSalary) =>
      Stage ((0 <? minSalary) || (maxSalary <? 500000))
            (salaryPredicate minSalary maxSalary)
  | None => Stage false (fun _ => Val true)
  end.

(** Line 151: [a.title.localeCompare(b.title)]; a missing [b.title] is
    converted to the string ["undefined"], a missing [a.title] throws. *)
Definition byTitle (a b : Job.t) : result number :=
  match Job.title a with
  | None => Throw TypeError
  | Some title => Val (Fin (localeCompare title (default "undefined"%string (Job.title b))))
  end.

(** Lines 154-158 *)
Definition bySalaryHighLow (a b : Job.t) : result number :=
  let salaryA := parsedSalary a in
  let salaryB := parsedSalary b in
  Val (js_sub salaryB salaryA).

(** Lines 161-165 *)
Definition bySalaryLowHigh (a b : Job.t) : result number :=
  let salaryA := parsedSalary a in
  let salaryB := parsedSalary b in
  Val (js_sub salaryA salaryB).

(** Lines 148-170; [sort] works in place, [filteredJobs] stays the same
    array. *)
Definition sortStage (sortOption : string) (filteredJobs : loc) : M loc :=
  if truthy sortOption then
    if String.eqb sortOption "alphabetical" then array_sort byTitle filteredJobs
    else if String.eqb sortOption "salary-high-low" then array_sort bySalaryHighLow filteredJobs
    else if String.eqb sortOption "salary-low-high" then array_sort bySalaryLowHigh filteredJobs
    else ret filteredJobs
  else ret filteredJobs.

Definition applyFiltersAndSort (jobs : loc) (filters : Filters.t)
    (searchQuery sortOption : string) : M loc :=
  let* filteredJobs := spread jobs in
  let* filteredJobs := runStage (searchStage searchQuery) filteredJobs in
  let* filteredJobs := runStage (companyStage filters) filteredJobs in
  let* filteredJobs := runStage (locationStage filters) filteredJobs in
  let* filteredJobs := runStage (departmentStage filters) filteredJobs in
  let* filteredJobs := runStage (remoteStage filters) filteredJobs in
  let* filteredJobs := runStage (salaryStage filters) filteredJobs in
  let* filteredJobs := sortStage sortOption filteredJobs in
  ret filteredJobs.

End Engine.

(** ** The notions the properties are stated with *)

Section Statements.
Context {L : Locale}.

(** The six filter statements in the order of the source. *)
Definition filterStages (filters : Filters.t) (searchQuery : string) : list stage :=
  [ searchStage searchQuery; companyStage filters; locationStage filters;
    departmentStage filters; remoteStage filters; salaryStage filters ].

Fixpoint runStages (order : list stage) (filteredJobs : loc) : M loc :=
  match order with
  | [] => ret filteredJobs
  | s :: rest =>
      let* filteredJobs := runStage s filteredJobs in
      runStages rest filteredJobs
  end.

(** The function with its filter statements put in another order. *)
Definition applyInOrder (order : list stage) (jobs : loc) (sortOption : string) : M loc :=
  let* filteredJobs := spread jobs in
  let* filteredJobs := runStages order filteredJobs in
  let* filteredJobs := sortStage sortOption filteredJobs in
  ret filteredJobs.

(** The documented input domain: every element of the array is a job
    object whose [title], [description] and [location] are strings
    ([department] and [salary] are optional). *)
Definition typed_job (job : Job.t) : Prop :=
  is_Some (Job.title job) /\ is_Some (Job.description job) /\
  is_Some (Job.location job).

Definition typed_jobs (O : gmap loc Job.t) (xs : list loc) : Prop :=
  Forall (fun l => exists job, O !! l = Some job /\ typed_job job) xs.

(** [m] returns an array that holds [ys]. *)
Definition yields (m : M loc) (h : heap) (ys : list loc) : Prop :=
  exists out h', m h = (Val out, h') /\ arrays h' !! out = Some ys.

(** The job at [l] satisfies the predicate of [s] whenever [s] is active. *)
Definition satisfies (O : gmap loc Job.t) (s : stage) (l : loc) : Prop :=
  active s = true ->
  exists job, O !! l = Some job /\ predicate s job = Val true.

Definition accepts (O : gmap loc Job.t) (s : stage) (l : loc) : bool :=
  negb (active s) ||
  match O !! l with
  | Some job => match predicate s job with Val b => b | Throw _ => false end
  | None => false
  end.

(** The elements of [xs] that every stage of [order] accepts. *)
Definition passing (O : gmap loc Job.t) (order : list stage) (xs : list loc) : list loc :=
  filter (fun l => forallb (fun s => accepts O s l) order) xs.

(** Sort keys of the element at [l]. *)
Definition salaryOf (O : gmap loc Job.t) (l : loc) : number :=
  match O !! l with
  | Some job => parsedSalary job
  | None => NaN
  end.

Definition titleOf (O : gmap loc Job.t) (l : loc) : string :=
  match O !! l with
  | Some job => default "undefined"%string (Job.title job)
  | None => "undefined"%string
  end.

(** The value of each comparator on two jobs of the documented domain. *)
Definition lessTitle (O : gmap loc Job.t) (x y : loc) : bool :=
  localeCompare (titleOf O x) (titleOf O y) <? 0.

Definition lessHighLow (O : gmap loc Job.t) (x y : loc) : bool :=
  negative (js_sub (salaryOf O y) (salaryOf O x)).

Definition lessLowHigh (O : gmap loc Job.t) (x y : loc) : bool :=
  negative (js_sub (salaryOf O x) (salaryOf O y)).

Definition sortedBy (sortOption : string) (O : gmap loc Job.t) (ys : list loc) : list loc :=
  if String.eqb sortOption "alphabetical" then isort (lessTitle O) ys
  else if String.eqb sortOption "salary-high-low" then isort (lessHighLow O) ys
  else if String.eqb sortOption "salary-low-high" then isort (lessLowHigh O) ys
  else ys.

(** Two elements have the same sort key under a sort option. *)
Definition sameKey (sortOption : string) (O : gmap loc Job.t) (x y : loc) : Prop :=
  if String.eqb sortOption "alphabetical"
  then localeCompare (titleOf O x) (titleOf O y) = 0
  else salaryOf O x = salaryOf O y.

Global Instance sameKey_dec sortOption O x y : Decision (sameKey sortOption O x y).
Proof. unfold sameKey. destruct (String.eqb sortOption "alphabetical"); apply _. Defined.

(** The heap [h] is [h0] with new arrays added: the job objects and the
    arrays of [h0] are as they were. *)
Definition extends (h0 h : heap) : Prop :=
  objects h = objects h0 /\
  forall a, a ∈ dom (arrays h0) -> arrays h !! a = arrays h0 !! a.

(** In [h], an extension of the caller's heap [h0], the array [a] is not
    one of the caller's and holds [ys]. *)
Definition holds (h0 h : heap) (a : loc) (ys : list loc) : Prop :=
  extends h0 h /\ (a ∉ dom (arrays h0)) /\ arrays h !! a = Some ys.

(** A statement of the function keeps the caller's heap intact as long as
    it works on an array that is not the caller's. *)
Definition preserves (h0 : heap) (f : loc -> M loc) : Prop :=
  forall h a r h',
    extends h0 h -> a ∉ dom (arrays h0) -> f a h = (r, h') ->
    extends h0 h' /\ forall a', r = Val a' -> a' ∉ dom (arrays h0).

(** The predicate of a stage returns on every job of the domain. *)
Definition total_on_typed (s : stage) : Prop :=
  forall job, typed_job job -> exists b, predicate s job = Val b.

(** The salary as the specification words it: the integer that the digits
    of the string spell, every other character skipped, and 0 for an absent
    or unparsable salary. *)
Fixpoint spec_digits (s : string) (acc : Z) : Z :=
  match s with
  | EmptyString => acc
  | String c s' => spec_digits s' (if is_digit c then 10 * acc + digit_value c else acc)
  end.

Definition spec_parsedSalary (job : Job.t) : Z :=
  match Job.salary job with
  | Some s => spec_digits s 0
  | None => 0
  end.

Definition spec_salaryOf (O : gmap loc Job.t) (l : loc) : Z :=
  match O !! l with
  | Some job => spec_parsedSalary job
  | None => 0
  end.

(** The filter state with its salary range put back to the default. *)
Definition defaultRange (filters : Filters.t) : Filters.t := {|
  Filters.companies := Filters.companies filters;
  Filters.locations := Filters.locations filters;
  Filters.departments := Filters.departments filters;
  Filters.remote := Filters.remote filters;
  Filters.salary := Some (0, 500000)
|}.

(** The salary filter is active as the specification words it: the range
    is not the default one. *)
Definition spec_salaryActive (filters : Filters.t) : bool :=
  match Filters.salary filters with
  | Some (minSalary, maxSalary) => negb ((minSalary =? 0) && (maxSalary =? 500000))
  | None => false
  end.

End Statements.

(** ** The predicates, spelt out

    What each filter asks of a job, stated without the callbacks: first as
    the specification words it, then as the engine decides it. *)

(** [sub] occurs in [s]. *)
Definition substring_of (sub s : string) : Prop :=
  exists before after, s = (before ++ sub ++ after)%string.

Section Predicates.
Context {L : Locale}.

(** *** As the specification words them (section 4.1, steps 1 to 6) *)

Definition spec_search (query : string) (job : Job.t) : Prop :=
  query <> ""%string ->
  exists text,
    (Job.title job = Some text \/ Job.description job = Some text \/
     Job.department job = Some text) /\
    substring_of (toLowerCase query) (toLowerCase text).

Definition spec_company (filters : Filters.t) (job : Job.t) : Prop :=
  forall companies, Filters.companies filters = Some companies -> companies <> [] ->
  exists name, Job.companyName job = Some name /\ name ∈ companies.

Definition spec_location (filters : Filters.t) (job : Job.t) : Prop :=
  forall locations, Filters.locations filters = Some locations -> locations <> [] ->
  exists location selected,
    Job.location job = Some location /\ selected ∈ locations /\
    substring_of (toLowerCase selected) (toLowerCase location).

Definition spec_department (filters : Filters.t) (job : Job.t) : Prop :=
  forall departments, Filters.departments filters = Some departments -> departments <> [] ->
  exists department, Job.department job = Some department /\ department ∈ departments.

Definition spec_remote (filters : Filters.t) (job : Job.t) : Prop :=
  Filters.remote filters = true -> Job.remote job = true.

Definition spec_salary (filters : Filters.t) (job : Job.t) : Prop :=
  forall minSalary maxSalary,
    Filters.salary filters = Some (minSalary, maxSalary) ->
    (minSalary, maxSalary) <> (0, 500000) ->
    minSalary <= spec_parsedSalary job <= maxSalary.

Definition spec_satisfies (filters : Filters.t) (query : string) (job : Job.t) : Prop :=
  spec_search query job /\ spec_company filters job /\ spec_location filters job /\
  spec_department filters job /\ spec_remote filters job /\ spec_salary filters job.

(** *** As the engine decides them

    The search, company, location and remote predicates are the
    specification's; a department counts only when it is not the empty
    string; the salary range is tested when its lower bound is above 0 or
    its upper bound below 500000, on the number that [parseInt] gives. *)

Definition meets_search (query : string) (job : Job.t) : Prop :=
  query <> ""%string ->
  (exists title, Job.title job = Some title /\
     substring_of (toLowerCase query) (toLowerCase title)) \/
  (exists description, Job.description job = Some description /\
     substring_of (toLowerCase query) (toLowerCase description)) \/
  (exists department, Job.department job = Some department /\
     department <> ""%string /\
     substring_of (toLowerCase query) (toLowerCase department)).

Definition meets_department (filters : Filters.t) (job : Job.t) : Prop :=
  forall departments, Filters.departments filters = Some departments -> departments <> [] ->
  exists department,
    Job.department job = Some department /\ department <> ""%string /\
    department ∈ departments.

(** The salary of the job, as a number, is within the bounds: 0 for an
    absent or empty salary, the double of its digits otherwise; a salary
    without a digit is within no bounds. *)
Definition salary_within (minSalary maxSalary : Z) (job : Job.t) : Prop :=
  (Job.salary job = None \/ Job.salary job = Some ""%string) /\
  minSalary <= 0 <= maxSalary \/
  exists s, Job.salary job = Some s /\ strip_non_digits s <> ""%string /\
    js_le (Fin minSalary) (to_double (spec_digits s 0)) = true /\
    js_le (to_double (spec_digits s 0)) (Fin maxSalary) = true.

Definition meets_salary (filters : Filters.t) (job : Job.t) : Prop :=
  forall minSalary maxSalary,
    Filters.salary filters = Some (minSalary, maxSalary) ->
    0 < minSalary \/ maxSalary < 500000 ->
    salary_within minSalary maxSalary job.

Definition meets (filters : Filters.t) (query : string) (job : Job.t) : Prop :=
  meets_search query job /\ spec_company filters job /\ spec_location filters job /\
  meets_department filters job /\ spec_remote filters job /\ meets_salary filters job.

End Predicates.

(** ** Another engine's sort

    For an array of fewer than 64 elements V8 detects the run the array
    starts with, reversing it when it is strictly descending, and puts
    each later element into the run by binary insertion; the comparator
    is read through the test [order < 0] only. *)

Definition result_bind {A B} (r : result A) (k : A -> result B) : result B :=
  match r with
  | Val a => k a
  | Throw e => Throw e
  end.

Section ShortArraySort.
Context {A : Type} (lt : A -> A -> result bool).

(** The elements that continue the run after [previous]. *)
Fixpoint continueRun (descending : bool) (previous : A) (l : list A) :
    result (list A * list A) :=
  match l with
  | [] => Val ([], [])
  | current :: l' =>
      result_bind (lt current previous) (fun less =>
      if eqb less descending then
        result_bind (continueRun descending current l') (fun '(run, rest) =>
        Val (current :: run, rest))
      else Val ([], l))
  end.

Definition countAndMakeRun (l : list A) : result (list A * list A) :=
  match l with
  | [] => Val ([], [])
  | [x] => Val ([x], [])
  | x0 :: x1 :: l' =>
      result_bind (lt x1 x0) (fun descending =>
      result_bind (continueRun descending x1 l') (fun '(run, rest) =>
      let whole := x0 :: x1 :: run in
      Val (if descending then reverse whole else whole, rest)))
  end.

(** The loop [while (left < right)] of the binary search. *)
Fixpoint binarySearch (fuel : nat) (pivot : A) (run : list A) (left right : nat) :
    result nat :=
  match fuel with
  | O => Val left
  | S fuel' =>
      if Nat.ltb left right then
        let mid := (left + Nat.div (right - left) 2)%nat in
        match run !! mid with
        | Some y =>
            result_bind (lt pivot y) (fun less =>
            if less then binarySearch fuel' pivot run left mid
            else binarySearch fuel' pivot run (S mid) right)
        | None => Val left
        end
      else Val left
  end.

Definition binaryInsert (pivot : A) (run : list A) : result (list A) :=
  result_bind (binarySearch (S (length run)) pivot run 0 (length run)) (fun position =>
  Val (take position run ++ pivot :: drop position run)).

Fixpoint binaryInsertionSort (run rest : list A) : result (list A) :=
  match rest with
  | [] => Val run
  | pivot :: rest' =>
      result_bind (binaryInsert pivot run) (fun run' => binaryInsertionSort run' rest')
  end.

Definition shortArraySort (l : list A) : result (list A) :=
  result_bind (countAndMakeRun l) (fun '(run, rest) => binaryInsertionSort run rest).

End ShortArraySort.

(** A sort of an engine: from the comparator, read through [order < 0],
    and the elements to the sorted elements. *)
Abbreviation sorter :=
  ((loc -> loc -> result bool) -> list loc -> result (list loc)).

(** The two sorts: the stable insertion sort, and the run detection with
    binary insertion of V8. *)
Inductive engine : Type := StableInsertion | RunAndBinaryInsertion.

Definition sortOf (e : engine) : sorter :=
  match e with
  | StableInsertion => sortM
  | RunAndBinaryInsertion => shortArraySort
  end.

Section OtherEngine.
Context {L : Locale}.

(** [applyFiltersAndSort] with the sort of the engine as a parameter; with
    [sortM] it is the function above ([applyFiltersAndSortOn_sortM]). *)
Definition array_sort_on (sort : sorter) (cmp : Job.t -> Job.t -> result number)
    (a : loc) : M loc :=
  fun h =>
    match arrays h !! a with
    | None => (Throw TypeError, h)
    | Some xs =>
        match sort (less_at cmp (objects h)) xs with
        | Throw e => (Throw e, h)
        | Val sorted => (Val a, Heap (objects h) (<[a := sorted]> (arrays h)))
        end
    end.

Definition sortStageOn (sort : sorter) (sortOption : string) (filteredJobs : loc) : M loc :=
  if truthy sortOption then
    if String.eqb sortOption "alphabetical" then array_sort_on sort byTitle filteredJobs
    else if String.eqb sortOption "salary-high-low"
      then array_sort_on sort bySalaryHighLow filteredJobs
    else if String.eqb sortOption "salary-low-high"
      then array_sort_on sort bySalaryLowHigh filteredJobs
    else ret filteredJobs
  else ret filteredJobs.

Definition applyFiltersAndSortOn (sort : sorter) (jobs : loc) (filters : Filters.t)
    (searchQuery sortOption : string) : M loc :=
  let* filteredJobs := spread jobs in
  let* filteredJobs := runStage (searchStage searchQuery) filteredJobs in
  let* filteredJobs := runStage (companyStage filters) filteredJobs in
  let* filteredJobs := runStage (locationStage filters) filteredJobs in
  let* filteredJobs := runStage (departmentStage filters) filteredJobs in
  let* filteredJobs := runStage (remoteStage filters) filteredJobs in
  let* filteredJobs := runStage (salaryStage filters) filteredJobs in
  let* filteredJobs := sortStageOn sort sortOption filteredJobs in
  ret filteredJobs.

End OtherEngine.

(** ** Sample data

    The two jobs of the scenarios of the specification, jobs whose salary
    is unparsable, empty, absent and above the default range, and the
    analyst without a description. *)

Definition engineer : Job.t := {|
  Job.title := Some "Engineer"%string;
  Job.description := Some "Builds the product"%string;
  Job.department := Some "Engineering"%string;
  Job.companyName := Some "A"%string;
  Job.location := Some "NY"%string;
  Job.remote := false;
  Job.salary := Some "$100,000"%string
|}.

Definition analyst : Job.t := {|
  Job.title := Some "Analyst"%string;
  Job.description := Some "Reads the data"%string;
  Job.department := None;
  Job.companyName := Some "B"%string;
  Job.location := Some "SF"%string;
  Job.remote := true;
  Job.salary := Some "$80,000"%string
|}.

Definition withSalary (title : string) (salary : option string) : Job.t := {|
  Job.title := Some title;
  Job.description := Some ""%string;
  Job.department := None;
  Job.companyName := Some "C"%string;
  Job.location := Some "Remote"%string;
  Job.remote := true;
  Job.salary := salary
|}.

Definition sampleObjects : gmap loc Job.t :=
  {[ 1%positive := engineer;
     2%positive := analyst;
     3%positive := withSalary "Intern" (Some "n/a"%string);
     4%positive := withSalary "Volunteer" (Some ""%string);
     5%positive := withSalary "Director" (Some "700000"%string);
     6%positive := withSalary "Clerk" (Some "5"%string);
     7%positive := withSalary "Trainee" None;
     8%positive := {| Job.title := Some "Analyst"%string;
                      Job.description := None;
                      Job.department := None;
                      Job.companyName := Some "B"%string;
                      Job.location := Some "SF"%string;
                      Job.remote := true;
                      Job.salary := Some "$80,000"%string |} ]}.

(** Filter states that differ from the default one in the salary range. *)
Definition withRange (minSalary maxSalary : Z) : Filters.t := {|
  Filters.companies := Some [];
  Filters.locations := Some [];
  Filters.departments := Some [];
  Filters.remote := false;
  Filters.salary := Some (minSalary, maxSalary)
|}.

Definition remoteOnly : Filters.t := {|
  Filters.companies := Some [];
  Filters.locations := Some [];
  Filters.departments := Some [];
  Filters.remote := true;
  Filters.salary := Some (0, 500000)
|}.

(** A heap whose only array, at reference 1, holds [xs]. *)
Definition sampleHeap (xs : list loc) : heap :=
  Heap sampleObjects {[ 1%positive := xs ]}.

(** ** The component [App] (App.js, lines 29-201)

    The state of the component is the record of its [useState] cells; a
    handler is modelled by the state that its calls of the setters leave,
    an effect by its body. *)

Module App.
Record state : Type := State {
  jobs : loc;
  loading : bool;
  error : option string;
  searchQuery : string;
  selectedFilters : Filters.t;
  filteredJobs : loc;
  sortOption : string;
  anchorEl : option loc;
  showScrollTop : bool
}.

Definition setJobs (v : loc) (s : state) : state :=
  State v (loading s) (error s) (searchQuery s) (selectedFilters s)
    (filteredJobs s) (sortOption s) (anchorEl s) (showScrollTop s).

Definition setLoading (v : bool) (s : state) : state :=
  State (jobs s) v (error s) (searchQuery s) (selectedFilters s)
    (filteredJobs s) (sortOption s) (anchorEl s) (showScrollTop s).

Definition setError (v : option string) (s : state) : state :=
  State (jobs s) (loading s) v (searchQuery s) (selectedFilters s)
    (filteredJobs s) (sortOption s) (anchorEl s) (showScrollTop s).

Definition setSearchQuery (v : string) (s : state) : state :=
  State (jobs s) (loading s) (error s) v (selectedFilters s)
    (filteredJobs s) (sortOption s) (anchorEl s) (showScrollTop s).

Definition setSelectedFilters (v : Filters.t) (s : state) : state :=
  State (jobs s) (loading s) (error s) (searchQuery s) v
    (filteredJobs s) (sortOption s) (anchorEl s) (showScrollTop s).

Definition setFilteredJobs (v : loc) (s : state) : state :=
  State (jobs s) (loading s) (error s) (searchQuery s) (selectedFilters s)
    v (sortOption s) (anchorEl s) (showScrollTop s).

Definition setSortOption (v : string) (s : state) : state :=
  State (jobs s) (loading s) (error s) (searchQuery s) (selectedFilters s)
    (filteredJobs s) v (anchorEl s) (showScrollTop s).

Definition setAnchorEl (v : option loc) (s : state) : state :=
  State (jobs s) (loading s) (error s) (searchQuery s) (selectedFilters s)
    (filteredJobs s) (sortOption s) v (showScrollTop s).

(** Lines 49-51 *)
Definition handleSortClick (currentTarget : loc) (s : state) : state :=
  setAnchorEl (Some currentTarget) s.

(** Lines 53-55 *)
Definition handleSortClose (s : state) : state := setAnchorEl None s.

(** Lines 57-60 *)
Definition handleSortOptionSelect (option : string) (s : state) : state :=
  handleSortClose (setSortOption option s).

(** Lines 195-197 *)
Definition handleSearchChange (query : string) (s : state) : state :=
  setSearchQuery query s.

(** Lines 199-201 *)
Definition handleFilterChange (filters : Filters.t) (s : state) : state :=
  setSelectedFilters filters s.

(** [open={Boolean(anchorEl)}], line 295 *)
Definition menuOpen (s : state) : bool :=
  match anchorEl s with
  | Some _ => true
  | None => false
  end.

(** *** [loadJobs] (lines 63-78)

    [fetchJobs] is imported from [./services/api]; what its promise
    settles to is an argument of the model: a response, which may be
    [null] and may lack [jobs], or a rejection.  A promise can be rejected
    with any value: with [null] or [undefined], or with a value whose
    [message] property, when it has one, is a string. *)

Inductive thrown : Type :=
  | Nullish
  | Error (message : option string).

Record response : Type := Response { response_jobs : option loc }.

Inductive settled : Type :=
  | Fulfilled (r : option response)
  | Rejected (err : thrown).

(** The TypeError that reading a property of [null] or [undefined]
    throws. *)
Inductive typeError : Type := PropertyOfNullish.

(** A handler that may throw a value of [E]. *)
Definition H (E A : Type) : Type := state -> (A + E) * state.

Definition call {E} (f : state -> state) : H E unit := fun s => (inl tt, f s).

Definition throw {E A} (err : E) : H E A := fun s => (inr err, s).

Definition andThen {E A B} (m : H E A) (k : A -> H E B) : H E B :=
  fun s =>
    match m s with
    | (inl a, s') => k a s'
    | (inr err, s') => (inr err, s')
    end.

(** [try { body } catch (err) { handler } finally { final }]: what the
    handler throws escapes, after [final] has run. *)
Definition tryCatchFinally {E E'} (body : H E unit) (handler : E -> H E' unit)
    (final : H E' unit) : H E' unit :=
  fun s =>
    let (r, s1) :=
      match body s with
      | (inl tt, s1) => (inl tt, s1)
      | (inr err, s1) => handler err s1
      end in
    match final s1 with
    | (inl tt, s2) => (r, s2)
    | (inr err, s2) => (inr err, s2)
    end.

(** [err.message] *)
Definition message (err : thrown) : H typeError (option string) :=
  match err with
  | Nullish => throw PropertyOfNullish
  | Error m => fun s => (inl m, s)
  end.

Definition loadJobs (fetchJobs : settled) : H typeError unit :=
  tryCatchFinally
    (andThen (call (setLoading true)) (fun _ =>
     andThen (match fetchJobs with
              | Fulfilled r => fun s => (inl r, s)
              | Rejected err => throw err
              end) (fun r =>
     match r with
     | Some (Response (Some jobs)) =>
         andThen (call (setJobs jobs)) (fun _ => call (setFilteredJobs jobs))
     | _ => throw (Error (Some "Invalid response format"%string))
     end)))
    (fun err => andThen (message err) (fun m => call (setError m)))
    (call (setLoading false)).
End App.

(** *** The filter effect (lines 175-193) *)

Section Effect.
Context {L : Locale}.

(** Lines 177-185: [||] evaluates its operands from the left and stops at
    the first truthy one; [.length] and [[0]] on a missing property
    throw. *)
Definition hasActiveFilters (selectedFilters : Filters.t)
    (searchQuery sortOption : string) : result bool :=
  match Filters.companies selectedFilters with
  | None => Throw TypeError
  | Some (_ :: _) => Val true
  | Some [] =>
  match Filters.locations selectedFilters with
  | None => Throw TypeError
  | Some (_ :: _) => Val true
  | Some [] =>
  match Filters.departments selectedFilters with
  | None => Throw TypeError
  | Some (_ :: _) => Val true
  | Some [] =>
  if Filters.remote selectedFilters then Val true
  else
  match Filters.salary selectedFilters with
  | None => Throw TypeError
  | Some (minSalary, maxSalary) =>
      if 0 <? minSalary then Val true
      else if maxSalary <? 500000 then Val true
      else if truthy searchQuery then Val true
      else Val (truthy sortOption)
  end end end end.

Definition filterEffect (s : App.state) : M App.state :=
  fun h =>
    match hasActiveFilters (App.selectedFilters s) (App.searchQuery s)
            (App.sortOption s) with
    | Throw e => (Throw e, h)
    | Val true =>
        (let* filteredResults :=
           applyFiltersAndSort (App.jobs s) (App.selectedFilters s)
             (App.searchQuery s) (App.sortOption s) in
         ret (App.setFilteredJobs filteredResults s)) h
    | Val false => ret (App.setFilteredJobs (App.jobs s) s) h
    end.

(** The filter state with another salary range. *)
Definition setRange (filters : Filters.t) (minSalary maxSalary : Z) : Filters.t := {|
  Filters.companies := Filters.companies filters;
  Filters.locations := Filters.locations filters;
  Filters.departments := Filters.departments filters;
  Filters.remote := Filters.remote filters;
  Filters.salary := Some (minSalary, maxSalary)
|}.

(** The filter state has all its properties, as the initial state and the
    states that [FilterSidebar] passes to [onFilterChange] have. *)
Definition complete (filters : Filters.t) : Prop :=
  is_Some (Filters.companies filters) /\ is_Some (Filters.locations filters) /\
  is_Some (Filters.departments filters) /\ is_Some (Filters.salary filters).

End Effect.

(** ** The component [SearchBar]

    [value] and [onChange] are the properties that [App] passes: the
    search query and [handleSearchChange] (App.js, lines 288-291). *)

Module SearchBar.
(** [onChange(e.target.value)] *)
Definition handleChange {A} (onChange : string -> A) (targetValue : string) : A :=
  onChange targetValue.

(** [onChange('')] *)
Definition handleClear {A} (onChange : string -> A) : A := onChange ""%string.

(** [{value && (<IconButton aria-label="clear" .../>)}] *)
Definition clearShown (value : string) : bool := truthy value.
End SearchBar.

(** Filter states with a selected department and without [companies]. *)
Definition engineeringOnly : Filters.t := {|
  Filters.companies := Some [];
  Filters.locations := Some [];
  Filters.departments := Some ["Engineering"%string];
  Filters.remote := false;
  Filters.salary := Some (0, 500000)
|}.

Definition noCompanies : Filters.t := {|
  Filters.companies := None;
  Filters.locations := Some [];
  Filters.departments := Some [];
  Filters.remote := true;
  Filters.salary := Some (0, 500000)
|}.

(** A state of the component over the sample heap: the jobs are the array
    at reference 1. *)
Definition sampleState (filters : Filters.t) (searchQuery sortOption : string) : App.state :=
  App.State 1 false None searchQuery filters 1 sortOption None false.

(** Seven jobs with the salaries 1, 2, 7, "n/a", 4, 3 and 4. *)
Definition tieObjects : gmap loc Job.t :=
  {[ 1%positive := withSalary "A" (Some "1"%string);
     2%positive := withSalary "B" (Some "2"%string);
     3%positive := withSalary "C" (Some "7"%string);
     4%positive := withSalary "D" (Some "n/a"%string);
     5%positive := withSalary "E" (Some "4"%string);
     6%positive := withSalary "F" (Some "3"%string);
     7%positive := withSalary "G" (Some "4"%string) ]}.

Definition tieHeap : heap :=
  Heap tieObjects {[ 1%positive := [1; 2; 3; 4; 5; 6; 7]%positive ]}.

(** * Properties *)

(** ** Numbers *)

Lemma to_double_nonneg n :
  0 <= n -> to_double n = PosInf \/ exists v, to_double n = Fin v /\ 0 <= v.
Proof.
  intros Hn. unfold to_double.
  destruct (n <? 2 ^ 53) eqn:Hsmall; [right; eauto|].
  apply Z.ltb_ge in Hsmall.
  set (e := Z.log2 n - 52).
  set (q := Z.shiftr n e).
  set (q' := if n - Z.shiftl q e <? 2 ^ (e - 1) then q
             else if 2 ^ (e - 1) <? n - Z.shiftl q e then q + 1
             else if Z.even q then q else q + 1).
  destruct (2 ^ 1024 <=? Z.shiftl q' e); [left; reflexivity|right].
  eexists; split; [reflexivity|].
  assert (0 <= q) by (apply Z.shiftr_nonneg; lia).
  apply Z.shiftl_nonneg. subst q'.
  repeat match goal with |- context [if ?b then _ else _] => destruct b end; lia.
Qed.

Lemma to_double_pos n :
  0 < n -> to_double n = PosInf \/ exists v, to_double n = Fin v /\ 0 < v.
Proof.
  intros Hn. unfold to_double.
  destruct (n <? 2 ^ 53) eqn:Hsmall; [right; eauto|].
  apply Z.ltb_ge in Hsmall.
  set (e := Z.log2 n - 52).
  set (q := Z.shiftr n e).
  set (q' := if n - Z.shiftl q e <? 2 ^ (e - 1) then q
             else if 2 ^ (e - 1) <? n - Z.shiftl q e then q + 1
             else if Z.even q then q else q + 1).
  destruct (2 ^ 1024 <=? Z.shiftl q' e); [left; reflexivity|right].
  eexists; split; [reflexivity|].
  assert (He : 0 <= e).
  { assert (53 <= Z.log2 n) by (apply Z.log2_le_pow2; lia). lia. }
  assert (Hq : 0 < q).
  { unfold q. rewrite Z.shiftr_div_pow2 by lia.
    apply Z.div_str_pos. split; [apply Z.pow_pos_nonneg; lia|].
    transitivity (2 ^ Z.log2 n).
    - apply Z.pow_le_mono_r; lia.
    - apply Z.log2_spec; lia. }
  rewrite Z.shiftl_mul_pow2 by lia.
  apply Z.mul_pos_pos; [|apply Z.pow_pos_nonneg; lia].
  subst q'.
  repeat match goal with |- context [if ?b then _ else _] => destruct b end; lia.
Qed.

Lemma negative_round z : negative (round z) = (z <? 0).
Proof.
  unfold round. destruct (z <? 0) eqn:Hz.
  - apply Z.ltb_lt in Hz.
    destruct (to_double_pos (- z)) as [-> | (v & -> & Hv)]; [lia|reflexivity|].
    simpl. apply Z.ltb_lt. lia.
  - apply Z.ltb_ge in Hz.
    destruct (to_double_nonneg z) as [-> | (v & -> & Hv)]; [lia|reflexivity|].
    simpl. apply Z.ltb_ge. lia.
Qed.

(** The sign test that [sort] makes on [a - b] is the comparison [a < b]. *)
Lemma negative_sub a b : negative (js_sub a b) = js_lt a b.
Proof.
  destruct a as [|x| |], b as [|y| |]; try reflexivity.
  simpl js_sub. rewrite negative_round. simpl.
  destruct (x - y <? 0) eqn:H1, (x <? y) eqn:H2; try reflexivity;
    rewrite ?Z.ltb_lt, ?Z.ltb_ge in *; lia.
Qed.

Lemma js_lt_irrefl a : js_lt a a = false.
Proof. destruct a; simpl; try reflexivity. apply Z.ltb_irrefl. Qed.

Lemma js_lt_trans a b c : js_lt a b = true -> js_lt b c = true -> js_lt a c = true.
Proof.
  destruct a, b, c; simpl; try congruence.
  rewrite !Z.ltb_lt. lia.
Qed.

(** Away from NaN, [<=] is the negation of [>]. *)
Lemma js_le_not_lt a b : a <> NaN -> b <> NaN -> js_lt b a = false -> js_le a b = true.
Proof.
  destruct a, b; simpl; try congruence.
  rewrite Z.ltb_ge, Z.leb_le. lia.
Qed.

Lemma parseInt_digits s :
  leading_digits s <> [] -> parseInt s = to_double (decimal (leading_digits s)).
Proof. unfold parseInt. destruct (leading_digits s); congruence. Qed.

Lemma strip_non_digits_digits s : leading_digits (strip_non_digits s) = [] -> strip_non_digits s = EmptyString.
Proof.
  induction s as [|c s IH]; simpl; [reflexivity|].
  destruct (is_digit c) eqn:Hc; [|exact IH].
  simpl. rewrite Hc. discriminate.
Qed.

(** ** Insertion sort *)

Lemma filter_none {A} (P : A -> Prop) `{!forall x, Decision (P x)} (l : list A) :
  Forall (fun z => ~ P z) l -> filter P l = [].
Proof.
  induction 1 as [|z l Hz _ IH]; [reflexivity|].
  by rewrite filter_cons_False.
Qed.

Section SortFacts.
Context {A : Type} (lt : A -> A -> bool).

Local Abbreviation ordered := (StronglySorted (fun a b => lt b a = false)).

Lemma insert_by_Permutation x l : insert_by lt x l ≡ₚ x :: l.
Proof.
  induction l as [|y l IH]; simpl; [reflexivity|].
  destruct (lt x y); [reflexivity|].
  rewrite IH. apply Permutation_swap.
Qed.

Lemma isort_from_Permutation acc l : isort_from lt acc l ≡ₚ acc ++ l.
Proof.
  revert acc. induction l as [|x l IH]; intros acc; simpl.
  - by rewrite app_nil_r.
  - unfold isort_from in *. simpl. rewrite IH, insert_by_Permutation.
    simpl. apply Permutation_middle.
Qed.

Lemma isort_Permutation l : isort lt l ≡ₚ l.
Proof. apply isort_from_Permutation. Qed.

(** What the sort yields when no comparison throws. *)
Lemma insertM_pure (ltM : A -> A -> result bool) x l :
  (forall y, y ∈ l -> ltM x y = Val (lt x y)) ->
  insertM ltM x l = Val (insert_by lt x l).
Proof.
  induction l as [|y l IH]; intros H; simpl; [reflexivity|].
  rewrite (H y) by left.
  destruct (lt x y); [reflexivity|].
  rewrite IH; [reflexivity|]. intros z Hz. apply H. by right.
Qed.

Lemma sortM_from_pure (ltM : A -> A -> result bool) acc l :
  (forall x y, x ∈ acc ++ l -> y ∈ acc ++ l -> ltM x y = Val (lt x y)) ->
  sortM_from ltM acc l = Val (isort_from lt acc l).
Proof.
  revert acc. induction l as [|x l IH]; intros acc H; simpl; [reflexivity|].
  rewrite (insertM_pure ltM).
  - apply IH. intros y z Hy Hz.
    apply H; rewrite elem_of_app, elem_of_cons;
      [rewrite elem_of_app, insert_by_Permutation, elem_of_cons in Hy
      |rewrite elem_of_app, insert_by_Permutation, elem_of_cons in Hz]; tauto.
  - intros y Hy. apply H; rewrite elem_of_app, elem_of_cons; tauto.
Qed.

Lemma sortM_pure (ltM : A -> A -> result bool) l :
  (forall x y, x ∈ l -> y ∈ l -> ltM x y = Val (lt x y)) ->
  sortM ltM l = Val (isort lt l).
Proof. intros H. apply sortM_from_pure. exact H. Qed.

Hypothesis lt_irrefl : forall a, lt a a = false.
Hypothesis lt_trans : forall a b c, lt a b = true -> lt b c = true -> lt a c = true.

Lemma insert_by_ordered x l : ordered l -> ordered (insert_by lt x l).
Proof.
  induction l as [|y l IH]; simpl; intros Hl.
  - repeat constructor.
  - apply StronglySorted_cons in Hl as [Hy Hl].
    destruct (lt x y) eqn:Hxy.
    + apply StronglySorted_cons. split; [|by apply StronglySorted_cons].
      constructor.
      * destruct (lt y x) eqn:Hyx; [|reflexivity].
        rewrite <- (lt_irrefl x). symmetry. by apply lt_trans with y.
      * rewrite Forall_forall in Hy |- *. intros z Hz.
        destruct (lt z x) eqn:Hzx; [|reflexivity].
        rewrite <- (Hy z Hz). symmetry. by apply lt_trans with x.
    + apply StronglySorted_cons. split; [|by apply IH].
      rewrite Forall_forall in Hy |- *. intros z Hz.
      rewrite insert_by_Permutation, elem_of_cons in Hz.
      destruct Hz as [->|Hz]; [exact Hxy|by apply Hy].
Qed.

Lemma isort_from_ordered acc l : ordered acc -> ordered (isort_from lt acc l).
Proof.
  revert acc. induction l as [|x l IH]; intros acc Hacc; [exact Hacc|].
  apply (IH (insert_by lt x acc)). by apply insert_by_ordered.
Qed.

(** No element of the result is less than an element before it. *)
Lemma isort_ordered l : ordered (isort lt l).
Proof. apply isort_from_ordered. constructor. Qed.

(** Stability: [P] picks the elements that have one sort key; two such
    elements compare alike with every other element. *)
Section Stable.
Context (P : A -> Prop) `{!forall x, Decision (P x)}.
Hypothesis P_lt : forall x z c, P x -> P z -> lt x c = lt z c.

Lemma insert_by_same x l :
  ordered l -> filter P (insert_by lt x l) = filter P l ++ filter P [x].
Proof.
  induction l as [|y l IH]; simpl; intros Hl; [reflexivity|].
  apply StronglySorted_cons in Hl as [Hy Hl].
  destruct (lt x y) eqn:Hxy.
  - destruct (decide (P x)) as [Hx|Hx].
    + assert (Hnone : filter P (y :: l) = []).
      { apply filter_none. rewrite Forall_forall. intros z Hz HPz.
        assert (Hzy : lt z y = true) by (rewrite <- Hxy; by apply P_lt).
        apply elem_of_cons in Hz as [->|Hz].
        - by rewrite lt_irrefl in Hzy.
        - rewrite Forall_forall in Hy. by rewrite (Hy z Hz) in Hzy. }
      rewrite (filter_cons _ x), Hnone. reflexivity.
    + rewrite !(filter_cons_False _ x) by done.
      by rewrite filter_nil, app_nil_r.
  - rewrite !(filter_cons _ y), IH by done.
    by destruct (decide (P y)).
Qed.

Lemma isort_from_same acc l :
  ordered acc -> filter P (isort_from lt acc l) = filter P acc ++ filter P l.
Proof.
  revert acc. induction l as [|x l IH]; intros acc Hacc.
  - simpl. by rewrite filter_nil, app_nil_r.
  - change (isort_from lt acc (x :: l)) with (isort_from lt (insert_by lt x acc) l).
    rewrite IH by (by apply insert_by_ordered).
    rewrite insert_by_same by done.
    rewrite <- app_assoc, <- filter_app. reflexivity.
Qed.

(** The elements with one key are in the result in the order they had in
    the input. *)
Lemma isort_stable l : filter P (isort lt l) = filter P l.
Proof. unfold isort. rewrite isort_from_same by constructor. reflexivity. Qed.

End Stable.

(** For a consistent comparator the result is the only one that ECMAScript
    allows: a list in which no element is less than an earlier one and in
    which the elements that compare equal to any [a] are in their input
    order is the list that insertion sort returns. *)
Local Abbreviation tied := (fun a z => negb (lt a z) && negb (lt z a)).

Lemma ordered_stable_unique l1 : forall l2,
  ordered l1 -> ordered l2 ->
  (forall a, filter (fun z => tied a z) l1 = filter (fun z => tied a z) l2) ->
  l1 = l2.
Proof.
  assert (Htied : forall a, tied a a = true) by (intros a; by rewrite lt_irrefl).
  induction l1 as [|x l1 IH]; intros [|y l2] H1 H2 Hsame.
  - reflexivity.
  - specialize (Hsame y). rewrite filter_nil, filter_cons_True in Hsame; [done|].
    by rewrite Htied.
  - specialize (Hsame x). rewrite filter_nil, filter_cons_True in Hsame; [done|].
    by rewrite Htied.
  - apply StronglySorted_cons in H1 as [Hx H1], H2 as [Hy H2].
    rewrite Forall_forall in Hx, Hy.
    assert (Hxin : x ∈ y :: l2).
    { eapply list_elem_of_filter. rewrite <- (Hsame x).
      rewrite filter_cons_True by (by rewrite Htied). left. }
    assert (Hyin : y ∈ x :: l1).
    { eapply list_elem_of_filter. rewrite (Hsame y).
      rewrite filter_cons_True by (by rewrite Htied). left. }
    assert (Hxy : lt x y = false).
    { apply elem_of_cons in Hxin as [->|Hxin]; [apply lt_irrefl|by apply Hy]. }
    assert (Hyx : lt y x = false).
    { apply elem_of_cons in Hyin as [->|Hyin]; [apply lt_irrefl|by apply Hx]. }
    assert (x = y) as <-.
    { specialize (Hsame x). rewrite !filter_cons_True in Hsame.
      - by injection Hsame.
      - by rewrite Hxy, Hyx.
      - by rewrite Htied. }
    f_equal. apply IH; [done..|]. intros a. specialize (Hsame a).
    rewrite !(filter_cons _ x) in Hsame.
    destruct (decide (tied a x)); [by injection Hsame|done].
Qed.

Lemma isort_unique l out :
  (forall a x c, tied a x = true -> lt a c = lt x c) ->
  ordered out ->
  (forall a, filter (fun z => tied a z) out = filter (fun z => tied a z) l) ->
  out = isort lt l.
Proof.
  intros Hweak Hout Hsame. apply ordered_stable_unique; [done|apply isort_ordered|].
  intros a. rewrite Hsame. symmetry. apply isort_stable.
  intros x z c Hx Hz. apply Is_true_true in Hx, Hz.
  by rewrite <- (Hweak a x c Hx), <- (Hweak a z c Hz).
Qed.

End SortFacts.

(** ** Heap operations *)

Section HeapFacts.
Context {L : Locale}.

Lemma extends_refl h : extends h h.
Proof. by split. Qed.

Lemma extends_dom h0 h a : extends h0 h -> a ∈ dom (arrays h0) -> a ∈ dom (arrays h).
Proof.
  intros [_ H] Ha. rewrite elem_of_dom, (H a Ha), <- elem_of_dom. exact Ha.
Qed.

Lemma alloc_holds h0 h xs :
  extends h0 h -> exists a h', alloc xs h = (Val a, h') /\ holds h0 h' a xs.
Proof.
  intros Hext. unfold alloc.
  set (a := fresh (dom (arrays h))).
  assert (Ha : a ∉ dom (arrays h)) by apply is_fresh.
  assert (Ha0 : a ∉ dom (arrays h0)) by (intros H0; by apply Ha, (extends_dom h0)).
  eexists _, _. split; [reflexivity|]. split; [|split].
  - destruct Hext as [Hobj Harr]. split; [exact Hobj|]. intros b Hb. simpl.
    rewrite lookup_insert_ne; [by apply Harr|]. intros ->. contradiction.
  - exact Ha0.
  - simpl. apply lookup_insert_eq.
Qed.

Lemma alloc_preserves h0 h xs r h' :
  extends h0 h -> alloc xs h = (r, h') ->
  extends h0 h' /\ forall a', r = Val a' -> a' ∉ dom (arrays h0).
Proof.
  intros Hext Hrun.
  destruct (alloc_holds h0 h xs Hext) as (a & h1 & Heq & Hext' & Ha & _).
  rewrite Heq in Hrun. injection Hrun as <- <-.
  split; [exact Hext'|]. by intros a' [= <-].
Qed.

Lemma spread_preserves h0 jobs r h' :
  spread jobs h0 = (r, h') ->
  extends h0 h' /\ forall a', r = Val a' -> a' ∉ dom (arrays h0).
Proof.
  unfold spread. destruct (arrays h0 !! jobs) as [xs|].
  - apply alloc_preserves, extends_refl.
  - intros [= <- <-]. split; [apply extends_refl|discriminate].
Qed.

Lemma ret_preserves h0 : preserves h0 ret.
Proof. intros h a r h' Hext Ha [= <- <-]. split; [exact Hext|by intros a' [= <-]]. Qed.

Lemma bind_preserves h0 (f : loc -> M loc) (k : loc -> M loc) :
  preserves h0 f -> preserves h0 k ->
  preserves h0 (fun a => let* a' := f a in k a').
Proof.
  intros Hf Hk h a r h' Hext Ha. unfold bind.
  destruct (f a h) as [[a1|e] h1] eqn:Hrun.
  - destruct (Hf _ _ _ _ Hext Ha Hrun) as [Hext1 Hfresh].
    apply Hk; [exact Hext1|by apply Hfresh].
  - intros [= <- <-].
    destruct (Hf _ _ _ _ Hext Ha Hrun) as [Hext1 _].
    split; [exact Hext1|discriminate].
Qed.

Lemma runStage_preserves h0 s : preserves h0 (runStage s).
Proof.
  intros h a r h' Hext Ha. unfold runStage.
  destruct (active s); [|by apply ret_preserves].
  unfold array_filter. destruct (arrays h !! a) as [xs|].
  - destruct (filter_elems _ _ xs) as [kept|e].
    + by apply alloc_preserves.
    + intros [= <- <-]. split; [exact Hext|discriminate].
  - intros [= <- <-]. split; [exact Hext|discriminate].
Qed.

Lemma array_sort_preserves h0 cmp : preserves h0 (array_sort cmp).
Proof.
  intros h a r h' Hext Ha. unfold array_sort.
  destruct (arrays h !! a) as [xs|]; [destruct (sortM _ xs) as [sorted|e]|];
    intros [= <- <-].
  - split; [|by intros a' [= <-]].
    destruct Hext as [Hobj Harr]. split; [exact Hobj|]. intros b Hb. simpl.
    rewrite lookup_insert_ne; [by apply Harr|]. intros ->. contradiction.
  - split; [exact Hext|discriminate].
  - split; [exact Hext|discriminate].
Qed.

Lemma sortStage_preserves h0 sortOption : preserves h0 (sortStage sortOption).
Proof.
  unfold sortStage.
  repeat match goal with |- context [if ?b then _ else _] => destruct b end;
    apply array_sort_preserves || apply ret_preserves.
Qed.

(** *** What the statements compute on the documented domain *)

Lemma typed_jobs_filter O (P : loc -> Prop) `{!forall l, Decision (P l)} xs :
  typed_jobs O xs -> typed_jobs O (filter P xs).
Proof.
  unfold typed_jobs. rewrite !Forall_forall. intros Hxs l Hl.
  apply Hxs. by apply list_elem_of_filter in Hl as [_ Hl].
Qed.

Lemma filter_elems_typed s O xs :
  active s = true -> total_on_typed s -> typed_jobs O xs ->
  filter_elems (predicate s) O xs = Val (filter (fun l => accepts O s l) xs).
Proof.
  intros Hact Htot. induction 1 as [|l xs (job & Hl & Hjob) _ IH]; [reflexivity|].
  simpl. rewrite Hl, IH. destruct (Htot job Hjob) as [b Hb]. rewrite Hb.
  assert (Hacc : accepts O s l = b) by (unfold accepts; by rewrite Hact, Hl, Hb).
  rewrite filter_cons.
  destruct (decide (accepts O s l)) as [Hd|Hd]; rewrite Hacc in Hd; by destruct b.
Qed.

Lemma filter_inactive s O (xs : list loc) :
  active s = false -> filter (fun l => accepts O s l) xs = xs.
Proof.
  intros Hact. induction xs as [|l xs IH]; [reflexivity|].
  rewrite filter_cons_True, IH; [reflexivity|].
  unfold accepts. by rewrite Hact.
Qed.

Lemma runStage_holds h0 h s a ys :
  total_on_typed s -> typed_jobs (objects h0) ys -> holds h0 h a ys ->
  exists a' h', runStage s a h = (Val a', h') /\
    holds h0 h' a' (filter (fun l => accepts (objects h0) s l) ys).
Proof.
  intros Htot Hty (Hext & Ha & Hys). unfold runStage.
  destruct (active s) eqn:Hact.
  - unfold array_filter. rewrite Hys.
    destruct Hext as [Hobj Harr]. rewrite Hobj.
    rewrite filter_elems_typed by done.
    apply alloc_holds. by split.
  - rewrite filter_inactive by done. by exists a, h.
Qed.

Lemma runStages_holds h0 order : forall h a ys,
  Forall total_on_typed order -> typed_jobs (objects h0) ys -> holds h0 h a ys ->
  exists a' h', runStages order a h = (Val a', h') /\
    holds h0 h' a' (passing (objects h0) order ys).
Proof.
  unfold passing.
  induction order as [|s order IH]; intros h a ys Htot Hty Hholds.
  - exists a, h. split; [reflexivity|].
    simpl. replace (filter _ ys) with ys; [exact Hholds|].
    clear. induction ys as [|l ys IHys]; [reflexivity|].
    by rewrite filter_cons_True, <- IHys.
  - apply Forall_cons in Htot as [Hs Htot].
    destruct (runStage_holds h0 h s a ys Hs Hty Hholds) as (a1 & h1 & Hrun & Hholds1).
    destruct (IH h1 a1 _ Htot (typed_jobs_filter _ _ _ Hty) Hholds1)
      as (a2 & h2 & Hrun2 & Hholds2).
    exists a2, h2. split.
    + simpl. unfold bind. by rewrite Hrun.
    + rewrite list_filter_filter in Hholds2.
      erewrite list_filter_iff; [exact Hholds2|].
      intros l. simpl. rewrite andb_True. tauto.
Qed.

End HeapFacts.

(** ** The engine on the documented domain *)

Section EngineFacts.
Context {L : Locale}.

Lemma less_at_byTitle O x y :
  typed_jobs O [x; y] -> less_at byTitle O x y = Val (lessTitle O x y).
Proof.
  intros Hxy. apply Forall_cons in Hxy as [(a & Ha & [t Ht] & _) Hxy].
  apply Forall_cons in Hxy as [(b & Hb & _) _].
  unfold less_at, lessTitle, titleOf, byTitle. rewrite Ha, Hb, Ht. reflexivity.
Qed.

Lemma less_at_bySalaryHighLow O x y :
  typed_jobs O [x; y] -> less_at bySalaryHighLow O x y = Val (lessHighLow O x y).
Proof.
  intros Hxy. apply Forall_cons in Hxy as [(a & Ha & _) Hxy].
  apply Forall_cons in Hxy as [(b & Hb & _) _].
  unfold less_at, lessHighLow, salaryOf, bySalaryHighLow. by rewrite Ha, Hb.
Qed.

Lemma less_at_bySalaryLowHigh O x y :
  typed_jobs O [x; y] -> less_at bySalaryLowHigh O x y = Val (lessLowHigh O x y).
Proof.
  intros Hxy. apply Forall_cons in Hxy as [(a & Ha & _) Hxy].
  apply Forall_cons in Hxy as [(b & Hb & _) _].
  unfold less_at, lessLowHigh, salaryOf, bySalaryLowHigh. by rewrite Ha, Hb.
Qed.

Lemma array_sort_holds h0 h cmp lt a ys :
  (forall x y, typed_jobs (objects h0) [x; y] ->
     less_at cmp (objects h0) x y = Val (lt x y)) ->
  typed_jobs (objects h0) ys -> holds h0 h a ys ->
  exists h', array_sort cmp a h = (Val a, h') /\ holds h0 h' a (isort lt ys).
Proof.
  intros Hcmp Hty ((Hobj & Harr) & Ha & Hys). unfold array_sort.
  rewrite Hys, Hobj. rewrite (sortM_pure lt).
  - eexists. split; [reflexivity|]. split; [split|split]; simpl.
    + reflexivity.
    + intros b Hb. rewrite lookup_insert_ne; [by apply Harr|].
      intros ->. contradiction.
    + exact Ha.
    + apply lookup_insert_eq.
  - intros x y Hx Hy. apply Hcmp. unfold typed_jobs in *.
    rewrite Forall_forall in Hty. repeat constructor; by apply Hty.
Qed.

Lemma sortStage_holds h0 h sortOption a ys :
  typed_jobs (objects h0) ys -> holds h0 h a ys ->
  exists h', sortStage sortOption a h = (Val a, h') /\
    holds h0 h' a (sortedBy sortOption (objects h0) ys).
Proof.
  intros Hty Hholds. unfold sortStage, sortedBy.
  destruct (String.eqb sortOption "alphabetical") eqn:H1.
  { apply String.eqb_eq in H1 as ->. simpl.
    eapply array_sort_holds; eauto using less_at_byTitle. }
  destruct (String.eqb sortOption "salary-high-low") eqn:H2.
  { apply String.eqb_eq in H2 as ->. simpl.
    eapply array_sort_holds; eauto using less_at_bySalaryHighLow. }
  destruct (String.eqb sortOption "salary-low-high") eqn:H3.
  { apply String.eqb_eq in H3 as ->. simpl.
    eapply array_sort_holds; eauto using less_at_bySalaryLowHigh. }
  exists h. split; [by destruct (truthy sortOption)|exact Hholds].
Qed.

Lemma filterStages_total filters searchQuery :
  Forall total_on_typed (filterStages filters searchQuery).
Proof.
  repeat constructor; intros job ([t Ht] & [d Hd] & [loc Hloc]); simpl.
  - unfold searchPredicate. rewrite Ht, Hd.
    repeat match goal with
           | |- context [if ?b then _ else _] => destruct b
           | |- context [match ?o with Some _ => _ | None => _ end] => destruct o
           end; eauto.
  - unfold companyPredicate. eauto.
  - unfold locationPredicate. rewrite Hloc. eauto.
  - unfold departmentPredicate. destruct (Job.department job); eauto.
  - unfold remotePredicate. eauto.
  - unfold salaryStage. destruct (Filters.salary filters) as [[lo hi]|]; simpl; eauto.
Qed.

Lemma total_on_typed_Permutation (order order' : list stage) :
  order ≡ₚ order' -> Forall total_on_typed order' -> Forall total_on_typed order.
Proof. intros ->. done. Qed.

Lemma passing_Permutation O (order order' : list stage) xs :
  order ≡ₚ order' -> passing O order xs = passing O order' xs.
Proof.
  intros Hperm. unfold passing. apply list_filter_iff. intros l.
  rewrite !forallb_True, !Forall_forall.
  setoid_rewrite Hperm. reflexivity.
Qed.

Lemma typed_jobs_passing O order xs :
  typed_jobs O xs -> typed_jobs O (passing O order xs).
Proof. apply typed_jobs_filter. Qed.

(** The result of the function with its filters in any order. *)
Lemma applyInOrder_holds h order jobs sortOption xs :
  Forall total_on_typed order ->
  arrays h !! jobs = Some xs -> typed_jobs (objects h) xs ->
  exists out h', applyInOrder order jobs sortOption h = (Val out, h') /\
    holds h h' out (sortedBy sortOption (objects h) (passing (objects h) order xs)).
Proof.
  intros Htot Hjobs Hty. unfold applyInOrder, bind at 1, spread. rewrite Hjobs.
  destruct (alloc_holds h h xs (extends_refl h)) as (a0 & h0 & -> & Hholds0).
  unfold bind at 1.
  destruct (runStages_holds h order h0 a0 xs Htot Hty Hholds0)
    as (a1 & h1 & -> & Hholds1).
  unfold bind.
  destruct (sortStage_holds h h1 sortOption a1 _ (typed_jobs_passing _ order _ Hty) Hholds1)
    as (h2 & -> & Hholds2).
  by exists a1, h2.
Qed.

(** The function is its six filter statements in the order of the source,
    followed by the sort. *)
Lemma applyFiltersAndSort_in_order jobs filters searchQuery sortOption h :
  applyFiltersAndSort jobs filters searchQuery sortOption h =
  applyInOrder (filterStages filters searchQuery) jobs sortOption h.
Proof.
  unfold applyFiltersAndSort, applyInOrder, filterStages, runStages, bind.
  destruct (spread jobs h) as [[a|e] h0]; [|reflexivity].
  repeat match goal with
         | |- context [runStage ?s ?a ?h] => destruct (runStage s a h) as [[?|?] ?]
         end; reflexivity.
Qed.

Lemma applyFiltersAndSort_holds h jobs filters searchQuery sortOption xs :
  arrays h !! jobs = Some xs -> typed_jobs (objects h) xs ->
  exists out h',
    applyFiltersAndSort jobs filters searchQuery sortOption h = (Val out, h') /\
    holds h h' out
      (sortedBy sortOption (objects h)
         (passing (objects h) (filterStages filters searchQuery) xs)).
Proof.
  intros Hjobs Hty. rewrite applyFiltersAndSort_in_order.
  apply applyInOrder_holds; auto using filterStages_total.
Qed.

Lemma sortedBy_Permutation sortOption O ys : sortedBy sortOption O ys ≡ₚ ys.
Proof.
  unfold sortedBy.
  repeat match goal with |- context [if ?b then _ else _] => destruct b end;
    auto using isort_Permutation.
Qed.

End EngineFacts.

(** ** The properties of the specification *)

Section Claims.
Context {L : Locale}.

Lemma accepts_satisfies O s l : accepts O s l <-> satisfies O s l.
Proof.
  unfold accepts, satisfies. destruct (active s); simpl.
  - split.
    + intros Hacc _. destruct (O !! l) as [job|]; [|done].
      exists job. split; [done|]. by destruct (predicate s job) as [[]|].
    + intros Hsat. destruct (Hsat eq_refl) as (job & -> & ->). done.
  - split; [discriminate|done].
Qed.

Lemma elem_of_passing O order xs l :
  l ∈ passing O order xs <-> l ∈ xs /\ Forall (fun s => satisfies O s l) order.
Proof.
  unfold passing. rewrite list_elem_of_filter, forallb_True.
  assert (Forall (fun s => accepts O s l) order <->
          Forall (fun s => satisfies O s l) order) as ->; [|tauto].
  apply Forall_iff. intros s. apply accepts_satisfies.
Qed.

Lemma holds_yields m h out h' ys :
  m h = (Val out, h') -> holds h h' out ys -> yields m h ys.
Proof. intros Hrun (_ & _ & Hys). by exists out, h'. Qed.

(** What the function returns on the documented domain. *)
Lemma applyFiltersAndSort_yields h jobs filters searchQuery sortOption xs :
  arrays h !! jobs = Some xs -> typed_jobs (objects h) xs ->
  yields (applyFiltersAndSort jobs filters searchQuery sortOption) h
    (sortedBy sortOption (objects h)
       (passing (objects h) (filterStages filters searchQuery) xs)).
Proof.
  intros Hjobs Hty.
  destruct (applyFiltersAndSort_holds h jobs filters searchQuery sortOption xs Hjobs Hty)
    as (out & h' & Hrun & Hholds).
  by eapply holds_yields.
Qed.

(** The filters compose as a conjunction: on the documented input domain
    the function returns an array; that array is a rearrangement of the
    input jobs that every filter statement accepts, so a job is in the
    output exactly when it is in the input and the callback of every
    active filter statement returns true on it.  What the callbacks ask of
    a job is spelt out in [filters_keep_the_jobs_that_meet_them]. *)
Theorem filters_sound_and_complete h jobs xs filters searchQuery sortOption :
  arrays h !! jobs = Some xs -> typed_jobs (objects h) xs ->
  exists ys,
    yields (applyFiltersAndSort jobs filters searchQuery sortOption) h ys /\
    ys ≡ₚ passing (objects h) (filterStages filters searchQuery) xs /\
    forall l, l ∈ ys <->
      l ∈ xs /\
      Forall (fun s => satisfies (objects h) s l) (filterStages filters searchQuery).
Proof.
  intros Hjobs Hty. eexists. split; [by apply applyFiltersAndSort_yields|].
  split; [apply sortedBy_Permutation|].
  intros l. rewrite sortedBy_Permutation. apply elem_of_passing.
Qed.

(** C4. Identity law: with the default filter state, the empty query and no
    sort option the function returns an array that holds the input jobs,
    the same elements in the same order. *)
Theorem default_state_returns_input h jobs xs :
  arrays h !! jobs = Some xs ->
  yields (applyFiltersAndSort jobs Filters.default "" "") h xs.
Proof.
  intros Hjobs. unfold yields, applyFiltersAndSort, bind, spread.
  rewrite Hjobs. simpl. eexists _, _. split; [reflexivity|].
  simpl. apply lookup_insert_eq.
Qed.

(** C7. Totality: on the documented input domain (every element a job with
    a title, a description and a location; any salary string, any filter
    state, query and sort option) the function does not throw but returns
    an array, and for an empty input array the returned array is empty. *)
Theorem returns_on_typed_input h jobs xs filters searchQuery sortOption :
  arrays h !! jobs = Some xs -> typed_jobs (objects h) xs ->
  exists ys,
    yields (applyFiltersAndSort jobs filters searchQuery sortOption) h ys /\
    (xs = [] -> ys = []).
Proof.
  intros Hjobs Hty. eexists. split; [by apply applyFiltersAndSort_yields|].
  intros ->. apply Permutation_nil_r. by rewrite sortedBy_Permutation.
Qed.

(** C8. Frame: whatever the arguments, and whether the call returns or
    throws, the job objects and every array of the caller's heap, the input
    array among them, are after the call what they were before it; the
    returned array is a new one. *)
Theorem input_not_mutated h jobs filters searchQuery sortOption :
  let (r, h') := applyFiltersAndSort jobs filters searchQuery sortOption h in
  objects h' = objects h /\
  arrays h' !! jobs = arrays h !! jobs /\
  (forall a, a ∈ dom (arrays h) -> arrays h' !! a = arrays h !! a) /\
  (forall out, r = Val out -> out ∉ dom (arrays h)).
Proof.
  destruct (applyFiltersAndSort jobs filters searchQuery sortOption h)
    as [r h'] eqn:Hrun.
  assert (Hframe : extends h h' /\ forall out, r = Val out -> out ∉ dom (arrays h)).
  { revert Hrun. unfold applyFiltersAndSort. unfold bind at 1.
    destruct (spread jobs h) as [[a|e] h0] eqn:Hspread.
    - destruct (spread_preserves _ _ _ _ Hspread) as [Hext Hfresh].
      specialize (Hfresh a eq_refl). intros Hrun.
      assert (Hrest : preserves h (fun a =>
        let* a := runStage (searchStage searchQuery) a in
        let* a := runStage (companyStage filters) a in
        let* a := runStage (locationStage filters) a in
        let* a := runStage (departmentStage filters) a in
        let* a := runStage (remoteStage filters) a in
        let* a := runStage (salaryStage filters) a in
        let* a := sortStage sortOption a in
        ret a)).
      { repeat (apply bind_preserves; [apply runStage_preserves|]).
        apply bind_preserves; [apply sortStage_preserves|apply ret_preserves]. }
      exact (Hrest h0 a r h' Hext Hfresh Hrun).
    - intros [= <- <-]. destruct (spread_preserves _ _ _ _ Hspread) as [Hext _].
      split; [exact Hext|discriminate]. }
  destruct Hframe as [[Hobj Harr] Hfresh].
  split; [exact Hobj|]. split; [|split; [exact Harr|exact Hfresh]].
  destruct (arrays h !! jobs) as [xs|] eqn:Hjobs.
  - rewrite <- Hjobs. apply Harr. apply elem_of_dom. by rewrite Hjobs.
  - revert Hrun. unfold applyFiltersAndSort, bind, spread. rewrite Hjobs.
    intros [= <- <-]. exact Hjobs.
Qed.

(** C9. The filters commute: on the documented input domain, running the
    six filter statements in any order, and then the sort, returns the same
    sequence as the function, which runs them in the order of the source;
    with no sort option that sequence is the filtered one. *)
Theorem filters_commute h jobs xs filters searchQuery sortOption order :
  order ≡ₚ filterStages filters searchQuery ->
  arrays h !! jobs = Some xs -> typed_jobs (objects h) xs ->
  exists ys,
    yields (applyInOrder order jobs sortOption) h ys /\
    yields (applyFiltersAndSort jobs filters searchQuery sortOption) h ys.
Proof.
  intros Hperm Hjobs Hty. eexists. split; [|by apply applyFiltersAndSort_yields].
  destruct (applyInOrder_holds h order jobs sortOption xs) as (out & h' & Hrun & Hholds);
    [|exact Hjobs|exact Hty|].
  - eapply total_on_typed_Permutation; [exact Hperm|apply filterStages_total].
  - rewrite (passing_Permutation _ _ _ _ Hperm) in Hholds.
    by eapply holds_yields.
Qed.

End Claims.

(** ** Sorting *)

Section Comparator.
Context {A : Type} (cmp : A -> A -> Z) `{!ConsistentComparator cmp}.

Lemma cmp_gt_lt a b : cmp a b > 0 -> cmp b a < 0.
Proof.
  intros Hab. destruct (Z.lt_trichotomy (cmp b a) 0) as [H|[H|H]]; [exact H| |].
  - apply cmp_sym in H. lia.
  - apply Z.lt_gt in H. pose proof (cmp_trans_gt a b a Hab H). pose proof (cmp_refl a). lia.
Qed.

Lemma cmp_eq_lt a b c : cmp a b = 0 -> cmp a c < 0 -> cmp b c < 0.
Proof.
  intros Hab Hac. destruct (Z.lt_trichotomy (cmp b c) 0) as [H|[H|H]]; [exact H| |].
  - pose proof (cmp_trans_eq a b c Hab H). lia.
  - apply Z.lt_gt, cmp_gt_lt in H.
    pose proof (cmp_trans_lt a c b Hac H). lia.
Qed.

Lemma cmp_eq_ltb a b c : cmp a b = 0 -> (cmp a c <? 0) = (cmp b c <? 0).
Proof.
  intros Hab. destruct (cmp a c <? 0) eqn:H1, (cmp b c <? 0) eqn:H2; try reflexivity;
    rewrite ?Z.ltb_lt, ?Z.ltb_ge in *.
  - pose proof (cmp_eq_lt a b c Hab H1). lia.
  - pose proof (cmp_eq_lt b a c (cmp_sym _ _ Hab) H2). lia.
Qed.

End Comparator.

Lemma StronglySorted_impl_elem {A} (R R' : A -> A -> Prop) (l : list A) :
  (forall x y, x ∈ l -> y ∈ l -> R x y -> R' x y) ->
  StronglySorted R l -> StronglySorted R' l.
Proof.
  intros Himpl Hl. induction Hl as [|x l Hl IH Hx]; constructor.
  - apply IH. intros y z Hy Hz. apply Himpl; by right.
  - rewrite Forall_forall in Hx |- *. intros y Hy.
    apply Himpl; [left|by right|by apply Hx].
Qed.

Section SortClaims.
Context {L : Locale}.

Lemma lessHighLow_lt O x y : lessHighLow O x y = js_lt (salaryOf O y) (salaryOf O x).
Proof. apply negative_sub. Qed.

Lemma lessLowHigh_lt O x y : lessLowHigh O x y = js_lt (salaryOf O x) (salaryOf O y).
Proof. apply negative_sub. Qed.

Lemma isort_lessHighLow_ordered O ys :
  Forall (fun l => salaryOf O l <> NaN) ys ->
  StronglySorted (fun x y => js_ge (salaryOf O x) (salaryOf O y) = true)
    (isort (lessHighLow O) ys).
Proof.
  intros Hnum.
  eapply StronglySorted_impl_elem; [|apply isort_ordered].
  - intros x y Hx Hy Hxy. cbv beta in Hxy. rewrite lessHighLow_lt in Hxy.
    rewrite isort_Permutation in Hx, Hy. rewrite Forall_forall in Hnum.
    apply js_le_not_lt; auto.
  - intros a. rewrite lessHighLow_lt. apply js_lt_irrefl.
  - intros a b c. rewrite !lessHighLow_lt. intros H1 H2. by apply js_lt_trans with (salaryOf O b).
Qed.

Lemma isort_lessLowHigh_ordered O ys :
  Forall (fun l => salaryOf O l <> NaN) ys ->
  StronglySorted (fun x y => js_le (salaryOf O x) (salaryOf O y) = true)
    (isort (lessLowHigh O) ys).
Proof.
  intros Hnum.
  eapply StronglySorted_impl_elem; [|apply isort_ordered].
  - intros x y Hx Hy Hxy. cbv beta in Hxy. rewrite lessLowHigh_lt in Hxy.
    rewrite isort_Permutation in Hx, Hy. rewrite Forall_forall in Hnum.
    apply js_le_not_lt; auto.
  - intros a. rewrite lessLowHigh_lt. apply js_lt_irrefl.
  - intros a b c. rewrite !lessLowHigh_lt. intros H1 H2. by apply js_lt_trans with (salaryOf O b).
Qed.

Lemma isort_lessHighLow_stable O (P : loc -> Prop) `{!forall l, Decision (P l)} ys :
  (forall x z, P x -> P z -> salaryOf O x = salaryOf O z) ->
  filter P (isort (lessHighLow O) ys) = filter P ys.
Proof.
  intros HP. apply isort_stable.
  - intros a. rewrite lessHighLow_lt. apply js_lt_irrefl.
  - intros a b c. rewrite !lessHighLow_lt. intros H1 H2. by apply js_lt_trans with (salaryOf O b).
  - intros x z c Hx Hz. rewrite !lessHighLow_lt. by rewrite (HP x z).
Qed.

Lemma isort_lessLowHigh_stable O (P : loc -> Prop) `{!forall l, Decision (P l)} ys :
  (forall x z, P x -> P z -> salaryOf O x = salaryOf O z) ->
  filter P (isort (lessLowHigh O) ys) = filter P ys.
Proof.
  intros HP. apply isort_stable.
  - intros a. rewrite lessLowHigh_lt. apply js_lt_irrefl.
  - intros a b c. rewrite !lessLowHigh_lt. intros H1 H2. by apply js_lt_trans with (salaryOf O b).
  - intros x z c Hx Hz. rewrite !lessLowHigh_lt. by rewrite (HP x z).
Qed.

Section Alphabetical.
Context `{!ConsistentComparator localeCompare}.

Lemma isort_lessTitle_ordered O ys :
  StronglySorted (fun x y => localeCompare (titleOf O x) (titleOf O y) <= 0)
    (isort (lessTitle O) ys).
Proof.
  eapply StronglySorted_impl_elem; [|apply isort_ordered].
  - intros x y _ _ Hxy. cbv beta in Hxy. unfold lessTitle in Hxy. apply Z.ltb_ge in Hxy.
    destruct (Z.le_gt_cases (localeCompare (titleOf O x) (titleOf O y)) 0) as [H|H];
      [exact H|].
    apply Z.lt_gt, (cmp_gt_lt localeCompare) in H. lia.
  - intros a. unfold lessTitle. rewrite cmp_refl. reflexivity.
  - intros a b c. unfold lessTitle. rewrite !Z.ltb_lt. apply cmp_trans_lt.
Qed.

Lemma isort_lessTitle_stable O x ys :
  filter (fun l => localeCompare (titleOf O x) (titleOf O l) = 0) (isort (lessTitle O) ys) =
  filter (fun l => localeCompare (titleOf O x) (titleOf O l) = 0) ys.
Proof.
  apply isort_stable.
  - intros a. unfold lessTitle. rewrite cmp_refl. reflexivity.
  - intros a b c. unfold lessTitle. rewrite !Z.ltb_lt. apply cmp_trans_lt.
  - intros a z c Ha Hz. unfold lessTitle. apply cmp_eq_ltb; [apply _|].
    eapply cmp_trans_eq; [apply cmp_sym, Ha|exact Hz].
Qed.

End Alphabetical.
End SortClaims.

(** ** Salary parsing, the salary range and the sort options *)

Section SalaryClaims.
Context {L : Locale}.

Lemma decimal_strip s : decimal (leading_digits (strip_non_digits s)) = spec_digits s 0.
Proof.
  unfold decimal. generalize 0. induction s as [|c s IH]; intros acc; simpl.
  - reflexivity.
  - destruct (is_digit c) eqn:Hc; simpl; [rewrite Hc; simpl|]; apply IH.
Qed.

Lemma spec_digits_nonneg s : forall acc, 0 <= acc -> 0 <= spec_digits s acc.
Proof.
  induction s as [|c s IH]; intros acc Hacc; simpl; [exact Hacc|].
  apply IH. destruct (is_digit c) eqn:Hc; [|exact Hacc].
  unfold is_digit in Hc. apply andb_true_iff in Hc as [Hc _].
  apply Z.leb_le in Hc. unfold digit_value. lia.
Qed.

Lemma leading_digits_strip s :
  strip_non_digits s <> EmptyString -> leading_digits (strip_non_digits s) <> [].
Proof.
  intros Hs Hnil. by apply strip_non_digits_digits in Hnil.
Qed.

Lemma sortedBy_stable `{!ConsistentComparator localeCompare} sortOption O x ys :
  filter (sameKey sortOption O x) (sortedBy sortOption O ys) =
  filter (sameKey sortOption O x) ys.
Proof.
  destruct (String.eqb sortOption "alphabetical") eqn:H1.
  - assert (Hiff : forall l, sameKey sortOption O x l <->
                     localeCompare (titleOf O x) (titleOf O l) = 0)
      by (intros l; unfold sameKey; by rewrite H1).
    rewrite !(list_filter_iff _ _ _ Hiff). unfold sortedBy. rewrite H1.
    apply isort_lessTitle_stable.
  - assert (Hiff : forall l, sameKey sortOption O x l <-> salaryOf O x = salaryOf O l)
      by (intros l; unfold sameKey; by rewrite H1).
    rewrite !(list_filter_iff _ _ _ Hiff). unfold sortedBy. rewrite H1.
    destruct (String.eqb sortOption "salary-high-low");
      [apply isort_lessHighLow_stable; congruence|].
    destruct (String.eqb sortOption "salary-low-high");
      [apply isort_lessLowHigh_stable; congruence|reflexivity].
Qed.

(** C2 (amended). Salary sorts: on the documented input domain, when no
    filtered job has a salary that parses to NaN, the output for
    'salary-high-low' is ordered descending and the output for
    'salary-low-high' ascending by the parsed salary, and in both the jobs
    with one parsed salary keep their filtered order.  The key is the
    value [parsedSalary] that the salary filter compares with the range,
    and a missing salary has key 0. *)
Theorem salary_sorts_ordered_and_stable h jobs xs filters searchQuery :
  arrays h !! jobs = Some xs -> typed_jobs (objects h) xs ->
  Forall (fun l => salaryOf (objects h) l <> NaN)
    (passing (objects h) (filterStages filters searchQuery) xs) ->
  (exists ys,
     yields (applyFiltersAndSort jobs filters searchQuery "salary-high-low") h ys /\
     StronglySorted
       (fun x y => js_ge (salaryOf (objects h) x) (salaryOf (objects h) y) = true) ys /\
     forall k,
       filter (fun l => salaryOf (objects h) l = k) ys =
       filter (fun l => salaryOf (objects h) l = k)
         (passing (objects h) (filterStages filters searchQuery) xs)) /\
  (exists ys,
     yields (applyFiltersAndSort jobs filters searchQuery "salary-low-high") h ys /\
     StronglySorted
       (fun x y => js_le (salaryOf (objects h) x) (salaryOf (objects h) y) = true) ys /\
     forall k,
       filter (fun l => salaryOf (objects h) l = k) ys =
       filter (fun l => salaryOf (objects h) l = k)
         (passing (objects h) (filterStages filters searchQuery) xs)) /\
  (forall job minSalary maxSalary,
     salaryPredicate minSalary maxSalary job =
     Val (js_ge (parsedSalary job) (Fin minSalary) &&
          js_le (parsedSalary job) (Fin maxSalary))) /\
  (forall job, Job.salary job = None -> parsedSalary job = Fin 0).
Proof.
  intros Hjobs Hty Hnum. repeat split.
  - eexists. split; [by apply applyFiltersAndSort_yields|].
    change (sortedBy "salary-high-low" (objects h) ?ys)
      with (isort (lessHighLow (objects h)) ys).
    split; [by apply isort_lessHighLow_ordered|].
    intros k. apply isort_lessHighLow_stable. congruence.
  - eexists. split; [by apply applyFiltersAndSort_yields|].
    change (sortedBy "salary-low-high" (objects h) ?ys)
      with (isort (lessLowHigh (objects h)) ys).
    split; [by apply isort_lessLowHigh_ordered|].
    intros k. apply isort_lessLowHigh_stable. congruence.
  - intros job Hnone. unfold parsedSalary. by rewrite Hnone.
Qed.

(** C3 (amended). Salary parsing: an absent or empty salary is 0; a salary
    with at least one digit parses to a number, which is the integer that
    its digits, all other characters stripped, spell in decimal whenever
    that integer is below 2^53 ("$90,000" is 90000, "90k-120k" is 90120);
    a non-empty salary without a digit is NaN, not 0.  The salary filter
    and both salary comparators use this value. *)
Theorem parsedSalary_rule (job : Job.t) :
  (Job.salary job = None \/ Job.salary job = Some ""%string ->
   parsedSalary job = Fin 0) /\
  (forall s, Job.salary job = Some s -> strip_non_digits s <> ""%string ->
     parsedSalary job <> NaN /\
     (spec_parsedSalary job < 2 ^ 53 -> parsedSalary job = Fin (spec_parsedSalary job))) /\
  (forall s, Job.salary job = Some s -> s <> ""%string ->
     strip_non_digits s = ""%string -> parsedSalary job = NaN) /\
  parsedSalary (withSalary "" (Some "$90,000"%string)) = Fin 90000 /\
  parsedSalary (withSalary "" (Some "90k-120k"%string)) = Fin 90120 /\
  (forall minSalary maxSalary,
     salaryPredicate minSalary maxSalary job =
     Val (js_ge (parsedSalary job) (Fin minSalary) &&
          js_le (parsedSalary job) (Fin maxSalary))) /\
  (forall other,
     bySalaryHighLow job other = Val (js_sub (parsedSalary other) (parsedSalary job)) /\
     bySalaryLowHigh job other = Val (js_sub (parsedSalary job) (parsedSalary other))).
Proof.
  split; [|split; [|split; [|repeat split]]].
  - unfold parsedSalary. by intros [-> | ->].
  - intros s Hs Hdigits. unfold parsedSalary, spec_parsedSalary. rewrite Hs.
    assert (Htruthy : truthy s = true).
    { destruct s; [|reflexivity]. by contradict Hdigits. }
    rewrite Htruthy, parseInt_digits by (by apply leading_digits_strip).
    rewrite decimal_strip. split.
    + destruct (to_double_nonneg (spec_digits s 0)) as [-> | (v & -> & _)];
        [by apply spec_digits_nonneg|discriminate..].
    + intros Hsmall. unfold to_double. by apply Z.ltb_lt in Hsmall as ->.
  - intros s Hs Hne Hnone. unfold parsedSalary. rewrite Hs.
    destruct s; [done|]. simpl truthy. cbv iota. rewrite Hnone. reflexivity.
Qed.

(** C5 (amended). The salary-range filter is a no-op exactly when the lower
    bound is at most 0 and the upper bound at least 500000, the default
    range and every wider one: the function then returns what it returns
    for the default range.  When the lower bound is above 0 or the upper
    bound below 500000 the filter is active, and every job of the output
    has [minSalary <= parsedSalary <= maxSalary]. *)
Theorem salary_range_activation h jobs xs filters searchQuery sortOption
    minSalary maxSalary :
  arrays h !! jobs = Some xs -> typed_jobs (objects h) xs ->
  Filters.salary filters = Some (minSalary, maxSalary) ->
  (active (salaryStage filters) = false <-> minSalary <= 0 /\ 500000 <= maxSalary) /\
  exists ys,
    yields (applyFiltersAndSort jobs filters searchQuery sortOption) h ys /\
    (minSalary <= 0 /\ 500000 <= maxSalary ->
     yields (applyFiltersAndSort jobs (defaultRange filters) searchQuery sortOption) h ys) /\
    (0 < minSalary \/ maxSalary < 500000 ->
     forall l, l ∈ ys ->
       js_ge (salaryOf (objects h) l) (Fin minSalary) = true /\
       js_le (salaryOf (objects h) l) (Fin maxSalary) = true).
Proof.
  intros Hjobs Hty Hsalary.
  assert (Hactive : active (salaryStage filters) = (0 <? minSalary) || (maxSalary <? 500000))
    by (unfold salaryStage; by rewrite Hsalary).
  split.
  { rewrite Hactive, orb_false_iff, !Z.ltb_ge. reflexivity. }
  eexists. split; [by apply applyFiltersAndSort_yields|]. split.
  - intros [Hlo Hhi].
    assert (Hsame : passing (objects h) (filterStages filters searchQuery) xs =
                    passing (objects h) (filterStages (defaultRange filters) searchQuery) xs).
    { unfold passing. apply list_filter_iff. intros l.
      unfold filterStages. simpl forallb.
      replace (accepts (objects h) (salaryStage filters) l) with true.
      - reflexivity.
      - unfold accepts. rewrite Hactive.
        assert ((0 <? minSalary) = false) as -> by (apply Z.ltb_ge; lia).
        assert ((maxSalary <? 500000) = false) as -> by (apply Z.ltb_ge; lia).
        reflexivity. }
    rewrite Hsame. by apply applyFiltersAndSort_yields.
  - intros Hnarrow l Hl. rewrite sortedBy_Permutation in Hl.
    apply elem_of_passing in Hl as [_ Hl].
    rewrite Forall_forall in Hl.
    assert (Hin : salaryStage filters ∈ filterStages filters searchQuery).
    { unfold filterStages. rewrite !elem_of_cons. do 5 right. by left. }
    destruct (Hl _ Hin) as (job & Hjob & Hpred).
    { rewrite Hactive. apply orb_true_iff. rewrite !Z.ltb_lt. exact Hnarrow. }
    unfold salaryStage in Hpred. rewrite Hsalary in Hpred. simpl in Hpred.
    unfold salaryPredicate in Hpred. injection Hpred as Hpred.
    apply andb_true_iff in Hpred. unfold salaryOf. by rewrite Hjob.
Qed.

(** C10 (amended). When the salary-range filter is active, a job whose
    salary is a non-empty string without a digit is not in the output,
    whatever the bounds: its parsed salary is NaN and both comparisons with
    the bounds are false. *)
Theorem unparsable_salary_excluded h jobs xs filters searchQuery sortOption l job s :
  arrays h !! jobs = Some xs -> typed_jobs (objects h) xs ->
  active (salaryStage filters) = true ->
  objects h !! l = Some job -> Job.salary job = Some s ->
  s <> ""%string -> strip_non_digits s = ""%string ->
  exists ys,
    yields (applyFiltersAndSort jobs filters searchQuery sortOption) h ys /\ l ∉ ys.
Proof.
  intros Hjobs Hty Hactive Hjob Hs Hne Hnone.
  eexists. split; [by apply applyFiltersAndSort_yields|].
  rewrite sortedBy_Permutation. intros Hl.
  apply elem_of_passing in Hl as [_ Hl]. rewrite Forall_forall in Hl.
  assert (Hin : salaryStage filters ∈ filterStages filters searchQuery).
  { unfold filterStages. rewrite !elem_of_cons. do 5 right. by left. }
  destruct (Hl _ Hin Hactive) as (job' & Hjob' & Hpred).
  assert (job' = job) as -> by congruence.
  assert (HNaN : parsedSalary job = NaN).
  { unfold parsedSalary. rewrite Hs. destruct s; [done|].
    simpl truthy. cbv iota. by rewrite Hnone. }
  unfold salaryStage in Hpred, Hactive.
  destruct (Filters.salary filters) as [[minSalary maxSalary]|]; [|discriminate].
  simpl in Hpred. unfold salaryPredicate in Hpred. rewrite HNaN in Hpred.
  discriminate.
Qed.

End SalaryClaims.

(** ** Outside the documented domain *)

Section Boundary.
Context {L : Locale}.

Lemma filter_elems_throws cb O xs l job :
  l ∈ xs -> O !! l = Some job -> cb job = Throw TypeError ->
  filter_elems cb O xs = Throw TypeError.
Proof.
  intros Hl Hjob Hcb. induction xs as [|x xs IH]; [by apply elem_of_nil in Hl|].
  simpl. destruct (decide (x = l)) as [->|Hne].
  - by rewrite Hjob, Hcb.
  - apply elem_of_cons in Hl as [Hl|Hl]; [congruence|].
    destruct (O !! x) as [j|]; [|reflexivity].
    destruct (cb j) as [b|[]]; [|reflexivity].
    by rewrite (IH Hl).
Qed.

(** X1. A job without a description makes a search throw a TypeError as
    soon as its title does not contain the query: line 107 calls
    [toLowerCase] on [undefined]. *)
Theorem search_throws_without_description h jobs xs filters searchQuery sortOption
    l job title :
  arrays h !! jobs = Some xs -> l ∈ xs -> objects h !! l = Some job ->
  truthy searchQuery = true ->
  Job.title job = Some title ->
  includes (toLowerCase title) (toLowerCase searchQuery) = false ->
  Job.description job = None ->
  fst (applyFiltersAndSort jobs filters searchQuery sortOption h) = Throw TypeError.
Proof.
  intros Hjobs Hl Hjob Hquery Htitle Hmiss Hdesc.
  unfold applyFiltersAndSort, bind at 1, spread. rewrite Hjobs. unfold alloc.
  set (a := fresh (dom (arrays h))).
  set (h0 := Heap (objects h) (<[a := xs]> (arrays h))).
  assert (Hrun : runStage (searchStage searchQuery) a h0 = (Throw TypeError, h0)).
  { unfold runStage, searchStage. simpl. rewrite Hquery.
    unfold array_filter. simpl. rewrite lookup_insert_eq.
    rewrite (filter_elems_throws _ _ xs l job); try done.
    unfold searchPredicate. by rewrite Htitle, Hmiss, Hdesc. }
  unfold bind at 1. by rewrite Hrun.
Qed.

End Boundary.

(** ** The sample locale and the sample heap *)

Lemma ascii_compare_refl c : Ascii.compare c c = Eq.
Proof. unfold Ascii.compare. apply N.compare_refl. Qed.

Lemma string_compare_refl s : String.compare s s = Eq.
Proof.
  induction s as [|c s IH]; simpl; [reflexivity|].
  by rewrite ascii_compare_refl.
Qed.

Lemma string_compare_lt_trans a : forall b c,
  String.compare a b = Lt -> String.compare b c = Lt -> String.compare a c = Lt.
Proof.
  induction a as [|x a IH]; intros [|y b] [|z c]; simpl; try done.
  unfold Ascii.compare.
  destruct (N.compare_spec (N_of_ascii x) (N_of_ascii y)) as [Hxy|Hxy|Hxy]; try done;
    destruct (N.compare_spec (N_of_ascii y) (N_of_ascii z)) as [Hyz|Hyz|Hyz]; try done;
    destruct (N.compare_spec (N_of_ascii x) (N_of_ascii z)) as [Hxz|Hxz|Hxz];
    try done; try lia.
  apply IH.
Qed.

Lemma string_compare_gt_lt a b : String.compare a b = Gt <-> String.compare b a = Lt.
Proof.
  rewrite (String.compare_antisym a b).
  destruct (String.compare b a); simpl; split; congruence.
Qed.

Global Instance codeUnitCompare_consistent : ConsistentComparator codeUnitCompare.
Proof.
  unfold codeUnitCompare. split.
  - intros a. by rewrite string_compare_refl.
  - intros a b. destruct (String.compare a b) eqn:Hab; try done.
    apply String.compare_eq_iff in Hab as ->. by rewrite string_compare_refl.
  - intros a b c. destruct (String.compare a b) eqn:Hab; try done.
    by apply String.compare_eq_iff in Hab as ->.
  - intros a b c.
    destruct (String.compare a b) eqn:Hab; try done.
    destruct (String.compare b c) eqn:Hbc; try done.
    by rewrite (string_compare_lt_trans a b c).
  - intros a b c.
    destruct (String.compare a b) eqn:Hab; try done.
    destruct (String.compare b c) eqn:Hbc; try done.
    apply string_compare_gt_lt in Hab, Hbc.
    pose proof (string_compare_lt_trans c b a Hbc Hab) as Hca.
    apply string_compare_gt_lt in Hca. by rewrite Hca.
Qed.

Lemma sample_typed xs :
  Forall (fun l => (l <= 7)%positive) xs -> typed_jobs sampleObjects xs.
Proof.
  intros Hxs. eapply Forall_impl; [exact Hxs|]. intros l Hl. simpl in Hl.
  assert (Hcases : (l = 1 \/ l = 2 \/ l = 3 \/ l = 4 \/ l = 5 \/ l = 6 \/ l = 7)%positive)
    by lia.
  destruct Hcases as [->|[->|[->|[->|[->|[->| ->]]]]]];
    (eexists; split; [reflexivity|repeat split; eexists; reflexivity]).
Qed.

Lemma yields_compute (m : M loc) h ys :
  (let (r, h') := m h in
   match r with Val out => arrays h' !! out | Throw _ => None end) = Some ys ->
  yields m h ys.
Proof.
  unfold yields. destruct (m h) as [[out|e] h']; [|discriminate].
  intros Hys. by exists out, h'.
Qed.

(** ** The properties at the sample heap *)

Lemma filters_sound_and_complete_witness :
  typed_jobs sampleObjects [1; 2]%positive /\
  exists ys,
    yields (applyFiltersAndSort (L := asciiLocale) 1 remoteOnly "" "alphabetical")
      (sampleHeap [1; 2]%positive) ys /\
    ys ≡ₚ passing sampleObjects (filterStages (L := asciiLocale) remoteOnly "")
            [1; 2]%positive /\
    forall l, l ∈ ys <->
      l ∈ [1; 2]%positive /\
      Forall (fun s => satisfies sampleObjects s l)
        (filterStages (L := asciiLocale) remoteOnly "").
Proof.
  assert (Hty : typed_jobs sampleObjects [1; 2]%positive)
    by (apply sample_typed; repeat constructor; lia).
  split; [exact Hty|].
  exact (filters_sound_and_complete (L := asciiLocale) (sampleHeap [1; 2]%positive)
           1%positive [1; 2]%positive remoteOnly "" "alphabetical" eq_refl Hty).
Defined.

(** C2, as stated, fails: with 'salary-low-high' the clerk (salary "5")
    stays before the intern (salary "n/a"), although an unparsable salary
    sorting as key 0 would put the intern first. *)
Lemma unparsable_salary_does_not_sort_as_zero :
  yields (applyFiltersAndSort (L := asciiLocale) 1 Filters.default "" "salary-low-high")
    (sampleHeap [6; 3]%positive) [6; 3]%positive /\
  spec_salaryOf sampleObjects 6 = 5 /\
  spec_salaryOf sampleObjects 3 = 0 /\
  ~ StronglySorted
      (fun x y => spec_salaryOf sampleObjects x <= spec_salaryOf sampleObjects y)
      [6; 3]%positive.
Proof.
  split; [apply yields_compute; vm_compute; reflexivity|].
  split; [reflexivity|]. split; [reflexivity|].
  intros Hsorted. apply StronglySorted_cons in Hsorted as [Hhead _].
  apply Forall_cons in Hhead as [Hle _].
  change (5 <= 0) in Hle. lia.
Qed.

Lemma salary_sorts_ordered_and_stable_witness :
  typed_jobs sampleObjects [2; 7; 1; 6]%positive /\
  exists ys,
    yields (applyFiltersAndSort (L := asciiLocale) 1 Filters.default "" "salary-high-low")
      (sampleHeap [2; 7; 1; 6]%positive) ys /\
    StronglySorted
      (fun x y => js_ge (salaryOf sampleObjects x) (salaryOf sampleObjects y) = true) ys.
Proof.
  assert (Hty : typed_jobs sampleObjects [2; 7; 1; 6]%positive)
    by (apply sample_typed; repeat constructor; lia).
  split; [exact Hty|].
  assert (Hnum : Forall (fun l => salaryOf sampleObjects l <> NaN)
                   (passing sampleObjects
                      (filterStages (L := asciiLocale) Filters.default "")
                      [2; 7; 1; 6]%positive))
    by (repeat constructor; discriminate).
  destruct (salary_sorts_ordered_and_stable (L := asciiLocale)
              (sampleHeap [2; 7; 1; 6]%positive) 1%positive [2; 7; 1; 6]%positive
              Filters.default "" eq_refl Hty Hnum)
    as [(ys & Hys & Hsorted & _) _].
  exists ys. by split.
Defined.

(** C3, as stated, fails: the salary "n/a" has no digit, the specification
    reads it as 0, the engine parses it to NaN, and with the range
    [0, 100000] the engine drops the job although 0 is in the range. *)
Lemma unparsable_salary_is_not_zero :
  spec_parsedSalary (withSalary "Intern" (Some "n/a"%string)) = 0 /\
  parsedSalary (withSalary "Intern" (Some "n/a"%string)) = NaN /\
  yields (applyFiltersAndSort (L := asciiLocale) 1 (withRange 0 100000) "" "")
    (sampleHeap [3]%positive) [].
Proof.
  split; [reflexivity|]. split; [reflexivity|].
  apply yields_compute. vm_compute. reflexivity.
Qed.

Lemma default_state_returns_input_witness :
  yields (applyFiltersAndSort (L := asciiLocale) 1 Filters.default "" "")
    (sampleHeap [2; 1; 3]%positive) [2; 1; 3]%positive.
Proof.
  exact (default_state_returns_input (L := asciiLocale) (sampleHeap [2; 1; 3]%positive)
           1%positive [2; 1; 3]%positive eq_refl).
Defined.

(** C5, as stated, fails: the range [0, 600000] is not the default one,
    yet the filter does not run; the director, whose salary 700000 is
    above the upper bound, stays in the output. *)
Lemma wider_range_does_not_filter :
  spec_salaryActive (withRange 0 600000) = true /\
  active (salaryStage (withRange 0 600000)) = false /\
  yields (applyFiltersAndSort (L := asciiLocale) 1 (withRange 0 600000) "" "")
    (sampleHeap [5]%positive) [5]%positive /\
  salaryOf sampleObjects 5 = Fin 700000 /\
  js_le (Fin 700000) (Fin 600000) = false.
Proof.
  split; [reflexivity|]. split; [reflexivity|].
  split; [apply yields_compute; vm_compute; reflexivity|].
  split; reflexivity.
Qed.

Lemma salary_range_activation_witness :
  typed_jobs sampleObjects [1; 2; 7]%positive /\
  (active (salaryStage (withRange 90000 500000)) = false <->
   90000 <= 0 /\ 500000 <= 500000) /\
  exists ys,
    yields (applyFiltersAndSort (L := asciiLocale) 1 (withRange 90000 500000) "" "")
      (sampleHeap [1; 2; 7]%positive) ys /\
    forall l, l ∈ ys ->
      js_ge (salaryOf sampleObjects l) (Fin 90000) = true /\
      js_le (salaryOf sampleObjects l) (Fin 500000) = true.
Proof.
  assert (Hty : typed_jobs sampleObjects [1; 2; 7]%positive)
    by (apply sample_typed; repeat constructor; lia).
  split; [exact Hty|].
  destruct (salary_range_activation (L := asciiLocale) (sampleHeap [1; 2; 7]%positive)
              1%positive [1; 2; 7]%positive (withRange 90000 500000) "" ""
              90000 500000 eq_refl Hty eq_refl)
    as (Hactive & ys & Hys & _ & Hrange).
  split; [exact Hactive|]. exists ys. split; [exact Hys|].
  apply Hrange. left. lia.
Defined.

Lemma returns_on_typed_input_witness :
  typed_jobs sampleObjects [3; 4]%positive /\
  exists ys,
    yields (applyFiltersAndSort (L := asciiLocale) 1 (withRange 0 100000) "intern"
              "salary-high-low")
      (sampleHeap [3; 4]%positive) ys /\
    ([3; 4]%positive = [] -> ys = []).
Proof.
  assert (Hty : typed_jobs sampleObjects [3; 4]%positive)
    by (apply sample_typed; repeat constructor; lia).
  split; [exact Hty|].
  exact (returns_on_typed_input (L := asciiLocale) (sampleHeap [3; 4]%positive)
           1%positive [3; 4]%positive (withRange 0 100000) "intern" "salary-high-low"
           eq_refl Hty).
Defined.

Lemma filters_commute_witness :
  reverse (filterStages (L := asciiLocale) (withRange 90000 500000) "e") ≡ₚ
    filterStages (L := asciiLocale) (withRange 90000 500000) "e" /\
  typed_jobs sampleObjects [1; 2; 5]%positive /\
  exists ys,
    yields (applyInOrder (L := asciiLocale)
              (reverse (filterStages (L := asciiLocale) (withRange 90000 500000) "e"))
              1 "alphabetical")
      (sampleHeap [1; 2; 5]%positive) ys /\
    yields (applyFiltersAndSort (L := asciiLocale) 1 (withRange 90000 500000) "e"
              "alphabetical")
      (sampleHeap [1; 2; 5]%positive) ys.
Proof.
  assert (Hty : typed_jobs sampleObjects [1; 2; 5]%positive)
    by (apply sample_typed; repeat constructor; lia).
  split; [apply reverse_Permutation|]. split; [exact Hty|].
  exact (filters_commute (L := asciiLocale) (sampleHeap [1; 2; 5]%positive) 1%positive
           [1; 2; 5]%positive (withRange 90000 500000) "e" "alphabetical" _
           (reverse_Permutation _) eq_refl Hty).
Defined.

(** C10, as stated, fails: the empty salary string is present and has no
    digit, but it is falsy and read as 0, so with the active range
    [0, 100000] the volunteer stays in the output. *)
Lemma empty_salary_is_kept :
  active (salaryStage (withRange 0 100000)) = true /\
  sampleObjects !! 4%positive = Some (withSalary "Volunteer" (Some ""%string)) /\
  strip_non_digits "" = ""%string /\
  yields (applyFiltersAndSort (L := asciiLocale) 1 (withRange 0 100000) "" "")
    (sampleHeap [4]%positive) [4]%positive.
Proof.
  split; [reflexivity|]. split; [reflexivity|]. split; [reflexivity|].
  apply yields_compute. vm_compute. reflexivity.
Qed.

Lemma unparsable_salary_excluded_witness :
  typed_jobs sampleObjects [3; 6]%positive /\
  exists ys,
    yields (applyFiltersAndSort (L := asciiLocale) 1 (withRange 0 100000) "" "")
      (sampleHeap [3; 6]%positive) ys /\
    3%positive ∉ ys.
Proof.
  assert (Hty : typed_jobs sampleObjects [3; 6]%positive)
    by (apply sample_typed; repeat constructor; lia).
  split; [exact Hty|].
  refine (unparsable_salary_excluded (L := asciiLocale) (sampleHeap [3; 6]%positive)
            1%positive [3; 6]%positive (withRange 0 100000) "" "" 3%positive
            (withSalary "Intern" (Some "n/a"%string)) "n/a"
            eq_refl Hty eq_refl eq_refl eq_refl _ eq_refl).
  discriminate.
Defined.

Lemma search_throws_without_description_witness :
  fst (applyFiltersAndSort (L := asciiLocale) 1 Filters.default "engineer" ""
         (sampleHeap [1; 8]%positive)) = Throw TypeError.
Proof.
  refine (search_throws_without_description (L := asciiLocale)
            (sampleHeap [1; 8]%positive) 1%positive [1; 8]%positive Filters.default
            "engineer" "" 8%positive _ "Analyst" eq_refl _ eq_refl eq_refl eq_refl
            eq_refl eq_refl).
  apply elem_of_cons. right. apply elem_of_cons. by left.
Defined.

(** ** The scenarios of the specification *)

Example scenario_salary_high_low :
  yields (applyFiltersAndSort (L := asciiLocale) 1 Filters.default "" "salary-high-low")
    (sampleHeap [2; 1]%positive) [1; 2]%positive.
Proof. apply yields_compute. vm_compute. reflexivity. Qed.

Example scenario_remote :
  yields (applyFiltersAndSort (L := asciiLocale) 1 remoteOnly "" "")
    (sampleHeap [1; 2]%positive) [2]%positive.
Proof. apply yields_compute. vm_compute. reflexivity. Qed.

Example scenario_query :
  yields (applyFiltersAndSort (L := asciiLocale) 1 Filters.default "engineer" "")
    (sampleHeap [1; 2]%positive) [1]%positive.
Proof. apply yields_compute. vm_compute. reflexivity. Qed.

Example scenario_salary_range :
  yields (applyFiltersAndSort (L := asciiLocale) 1 (withRange 90000 500000) "" "")
    (sampleHeap [1; 2; 7]%positive) [1]%positive.
Proof. apply yields_compute. vm_compute. reflexivity. Qed.

(** * Further properties of the engine *)

Lemma filter_all {A} (P : A -> Prop) `{!forall x, Decision (P x)} (l : list A) :
  Forall P l -> filter P l = l.
Proof.
  induction 1 as [|x l Hx _ IH]; [reflexivity|].
  by rewrite filter_cons_True, IH.
Qed.

Lemma filter_sublist_mono {A} (P Q : A -> Prop)
    `{!forall x, Decision (P x)} `{!forall x, Decision (Q x)} (l : list A) :
  (forall x, P x -> Q x) -> filter P l `sublist_of` filter Q l.
Proof.
  intros HPQ. induction l as [|x l IH]; [constructor|].
  rewrite !filter_cons.
  destruct (decide (P x)) as [HP|HP], (decide (Q x)) as [HQ|HQ].
  - by constructor.
  - destruct HQ. by apply HPQ.
  - by constructor.
  - exact IH.
Qed.

Section SortedInput.
Context {A : Type} (lt : A -> A -> bool).

Lemma insert_by_last x l :
  Forall (fun y => lt x y = false) l -> insert_by lt x l = l ++ [x].
Proof.
  induction 1 as [|y l Hy _ IH]; simpl; [reflexivity|].
  by rewrite Hy, IH.
Qed.

Lemma isort_from_ordered_input l : forall acc,
  StronglySorted (fun a b => lt b a = false) (acc ++ l) ->
  isort_from lt acc l = acc ++ l.
Proof.
  induction l as [|x l IH]; intros acc Hord; simpl.
  - by rewrite app_nil_r.
  - unfold isort_from in *. simpl. rewrite insert_by_last.
    + rewrite IH; rewrite <- app_assoc; [reflexivity|exact Hord].
    + apply StronglySorted_app in Hord as (Hcross & _ & _).
      rewrite Forall_forall. intros y Hy. apply Hcross; [exact Hy|left].
Qed.

(** Sorting a list that is in order returns it. *)
Lemma isort_ordered_input l :
  StronglySorted (fun a b => lt b a = false) l -> isort lt l = l.
Proof. intros Hord. by apply (isort_from_ordered_input l []). Qed.

End SortedInput.

Lemma js_le_Fin_trans lo lo' v :
  lo <= lo' -> js_le (Fin lo') v = true -> js_le (Fin lo) v = true.
Proof.
  destruct v; simpl; try done. rewrite !Z.leb_le. lia.
Qed.

Lemma js_le_trans_Fin hi hi' v :
  hi' <= hi -> js_le v (Fin hi') = true -> js_le v (Fin hi) = true.
Proof.
  destruct v; simpl; try done. rewrite !Z.leb_le. lia.
Qed.

Section EngineMore.
Context {L : Locale}.

Lemma sortedBy_other sortOption O ys :
  sortOption <> "alphabetical"%string ->
  sortOption <> "salary-high-low"%string ->
  sortOption <> "salary-low-high"%string ->
  sortedBy sortOption O ys = ys.
Proof.
  intros H1 H2 H3. unfold sortedBy.
  apply String.eqb_neq in H1, H2, H3. by rewrite H1, H2, H3.
Qed.

Lemma passing_sublist O order xs : passing O order xs `sublist_of` xs.
Proof. apply sublist_filter. Qed.

Lemma passing_passing O order xs :
  passing O order (passing O order xs) = passing O order xs.
Proof.
  unfold passing at 1. apply filter_all. rewrite Forall_forall.
  intros l Hl. unfold passing in Hl. by apply list_elem_of_filter in Hl as [Hl _].
Qed.

Lemma passing_sortedBy O order sortOption xs :
  passing O order (sortedBy sortOption O (passing O order xs)) =
  sortedBy sortOption O (passing O order xs).
Proof.
  unfold passing at 1. apply filter_all. rewrite Forall_forall.
  intros l Hl. rewrite sortedBy_Permutation in Hl.
  unfold passing in Hl. by apply list_elem_of_filter in Hl as [Hl _].
Qed.

Lemma sortedBy_sortedBy `{!ConsistentComparator localeCompare} sortOption O ys :
  sortedBy sortOption O (sortedBy sortOption O ys) = sortedBy sortOption O ys.
Proof.
  unfold sortedBy.
  destruct (String.eqb sortOption "alphabetical").
  { apply isort_ordered_input, isort_ordered.
    - intros a. unfold lessTitle. rewrite cmp_refl. reflexivity.
    - intros a b c. unfold lessTitle. rewrite !Z.ltb_lt. apply cmp_trans_lt. }
  destruct (String.eqb sortOption "salary-high-low").
  { apply isort_ordered_input, isort_ordered.
    - intros a. rewrite lessHighLow_lt. apply js_lt_irrefl.
    - intros a b c. rewrite !lessHighLow_lt. intros H1 H2.
      by apply js_lt_trans with (salaryOf O b). }
  destruct (String.eqb sortOption "salary-low-high"); [|reflexivity].
  apply isort_ordered_input, isort_ordered.
  - intros a. rewrite lessLowHigh_lt. apply js_lt_irrefl.
  - intros a b c. rewrite !lessLowHigh_lt. intros H1 H2.
    by apply js_lt_trans with (salaryOf O b).
Qed.

Lemma typed_jobs_Permutation O (xs ys : list loc) :
  xs ≡ₚ ys -> typed_jobs O ys -> typed_jobs O xs.
Proof. unfold typed_jobs. by intros ->. Qed.

(** X2. An unrecognised sort option sorts nothing: with a sort option that
    is none of 'alphabetical', 'salary-high-low' and 'salary-low-high'
    (the empty string among them) the function returns, without an error,
    the jobs that pass the filters in the order they have in the input. *)
Theorem unrecognised_sort_keeps_input_order h jobs xs filters searchQuery sortOption :
  sortOption <> "alphabetical"%string ->
  sortOption <> "salary-high-low"%string ->
  sortOption <> "salary-low-high"%string ->
  arrays h !! jobs = Some xs -> typed_jobs (objects h) xs ->
  exists ys,
    yields (applyFiltersAndSort jobs filters searchQuery sortOption) h ys /\
    ys `sublist_of` xs /\
    forall l, l ∈ ys <->
      l ∈ xs /\
      Forall (fun s => satisfies (objects h) s l) (filterStages filters searchQuery).
Proof.
  intros H1 H2 H3 Hjobs Hty.
  exists (passing (objects h) (filterStages filters searchQuery) xs).
  split; [|split; [apply passing_sublist|intros l; apply elem_of_passing]].
  pose proof (applyFiltersAndSort_yields h jobs filters searchQuery sortOption xs
                Hjobs Hty) as Hyields.
  by rewrite sortedBy_other in Hyields.
Qed.

(** X3. Idempotence: calling the function again on the array it returned,
    with the same filter state, query and sort option, returns the same
    sequence.  (As for the sort order itself, the statement for the two
    salary options is for filtered lists without a salary that parses to
    NaN.) *)
Theorem applying_twice_changes_nothing `{!ConsistentComparator localeCompare}
    h jobs xs filters searchQuery sortOption :
  arrays h !! jobs = Some xs -> typed_jobs (objects h) xs ->
  (sortOption = "salary-high-low"%string \/ sortOption = "salary-low-high"%string ->
   Forall (fun l => salaryOf (objects h) l <> NaN)
     (passing (objects h) (filterStages filters searchQuery) xs)) ->
  exists out h' ys,
    applyFiltersAndSort jobs filters searchQuery sortOption h = (Val out, h') /\
    arrays h' !! out = Some ys /\
    yields (applyFiltersAndSort out filters searchQuery sortOption) h' ys.
Proof.
  intros Hjobs Hty _.
  destruct (applyFiltersAndSort_holds h jobs filters searchQuery sortOption xs Hjobs Hty)
    as (out & h' & Hrun & (Hobj & _) & _ & Hout).
  eexists out, h', _. split; [exact Hrun|]. split; [exact Hout|].
  set (ys := sortedBy sortOption (objects h)
               (passing (objects h) (filterStages filters searchQuery) xs)) in *.
  assert (Hty' : typed_jobs (objects h') ys).
  { rewrite Hobj. eapply typed_jobs_Permutation; [apply sortedBy_Permutation|].
    by apply typed_jobs_passing. }
  pose proof (applyFiltersAndSort_yields h' out filters searchQuery sortOption ys
                Hout Hty') as Hagain.
  rewrite Hobj in Hagain. unfold ys in Hagain at 1.
  by rewrite passing_sortedBy, sortedBy_sortedBy in Hagain.
Qed.

Lemma accepts_salary_narrower O filters minA maxA minB maxB l :
  minA <= minB -> maxB <= maxA ->
  accepts O (salaryStage (setRange filters minB maxB)) l ->
  accepts O (salaryStage (setRange filters minA maxA)) l.
Proof.
  intros Hmin Hmax. unfold accepts, salaryStage, setRange. simpl.
  destruct ((0 <? minA) || (maxA <? 500000)) eqn:HA; simpl; [|done].
  assert (HB : (0 <? minB) || (maxB <? 500000) = true).
  { apply orb_true_iff in HA. apply orb_true_iff. rewrite !Z.ltb_lt in *. lia. }
  rewrite HB. simpl. destruct (O !! l) as [job|]; [|done].
  unfold salaryPredicate, js_ge. rewrite !andb_True.
  intros [Hlo Hhi]. apply Is_true_true in Hlo, Hhi.
  split; apply Is_true_true; eauto using js_le_Fin_trans, js_le_trans_Fin.
Qed.

(** X4. Narrowing the salary range never adds a job: if the range
    [minB, maxB] lies within [minA, maxA], every job of the output for
    [minB, maxB] is, as often, in the output for [minA, maxA], the other
    filters, the query and the sort option being the same. *)
Theorem narrower_range_shows_fewer h jobs xs filters searchQuery sortOption
    minA maxA minB maxB :
  minA <= minB -> maxB <= maxA ->
  arrays h !! jobs = Some xs -> typed_jobs (objects h) xs ->
  exists ysA ysB,
    yields (applyFiltersAndSort jobs (setRange filters minA maxA) searchQuery sortOption)
      h ysA /\
    yields (applyFiltersAndSort jobs (setRange filters minB maxB) searchQuery sortOption)
      h ysB /\
    ysB ⊆+ ysA.
Proof.
  intros Hmin Hmax Hjobs Hty. eexists _, _.
  split; [by apply applyFiltersAndSort_yields|].
  split; [by apply applyFiltersAndSort_yields|].
  rewrite !sortedBy_Permutation. apply sublist_submseteq.
  unfold passing. apply filter_sublist_mono. intros l.
  unfold filterStages. simpl forallb. rewrite !andb_True.
  intros (H1 & H2 & H3 & H4 & H5 & H6 & _). repeat split; try done.
  by apply (accepts_salary_narrower _ filters minA maxA minB maxB).
Qed.

(** X5. The department filter and jobs without a department: when at least
    one department is selected, every job of the output has a department
    that is a non-empty string and is one of the selected ones; a job
    whose department is missing or the empty string is never in the
    output. *)
Theorem department_filter_needs_department h jobs xs filters searchQuery sortOption
    departments :
  Filters.departments filters = Some departments -> departments <> [] ->
  arrays h !! jobs = Some xs -> typed_jobs (objects h) xs ->
  exists ys,
    yields (applyFiltersAndSort jobs filters searchQuery sortOption) h ys /\
    forall l, l ∈ ys ->
      exists job department,
        objects h !! l = Some job /\ Job.department job = Some department /\
        department <> ""%string /\ department ∈ departments.
Proof.
  intros Hdeps Hne Hjobs Hty.
  eexists. split; [by apply applyFiltersAndSort_yields|].
  intros l Hl. rewrite sortedBy_Permutation in Hl.
  apply elem_of_passing in Hl as [_ Hl]. rewrite Forall_forall in Hl.
  assert (Hin : departmentStage filters ∈ filterStages filters searchQuery).
  { unfold filterStages. rewrite !elem_of_cons. do 3 right. by left. }
  destruct (Hl _ Hin) as (job & Hjob & Hpred).
  { unfold departmentStage. simpl. rewrite Hdeps. by destruct departments. }
  unfold departmentStage in Hpred. simpl in Hpred. rewrite Hdeps in Hpred.
  simpl in Hpred. unfold departmentPredicate in Hpred.
  destruct (Job.department job) as [department|] eqn:Hdep; [|discriminate].
  injection Hpred as Hpred. apply andb_true_iff in Hpred as [Htruthy Hincl].
  exists job, department. repeat split; try done.
  - intros ->. discriminate.
  - simpl in Hincl. apply existsb_exists in Hincl as (d & Hd & Heq).
    apply String.eqb_eq in Heq as ->. by apply list_elem_of_In.
Qed.

End EngineMore.

(** * The component *)

Section Component.
Context {L : Locale}.

Lemma hasActiveFilters_complete filters searchQuery sortOption :
  complete filters ->
  hasActiveFilters filters searchQuery sortOption =
  Val (existsb active (filterStages filters searchQuery) || truthy sortOption).
Proof.
  intros ([cs Hcs] & [ls Hls] & [ds Hds] & [[lo hi] Hsal]).
  unfold hasActiveFilters, filterStages, salaryStage. simpl.
  rewrite Hcs, Hls, Hds, Hsal. simpl.
  destruct (truthy searchQuery), cs, ls, ds, (Filters.remote filters),
    (0 <? lo), (hi <? 500000); reflexivity.
Qed.

Lemma passing_inactive O order xs :
  existsb active order = false -> passing O order xs = xs.
Proof.
  intros Hnone. unfold passing. apply filter_all. rewrite Forall_forall.
  intros l _. apply forallb_True, Forall_forall. intros s Hs.
  unfold accepts. replace (active s) with false; [done|].
  destruct (active s) eqn:Hact; [|reflexivity].
  rewrite <- Hnone. apply existsb_exists. exists s.
  split; [by apply list_elem_of_In|exact Hact].
Qed.

Lemma applyFiltersAndSort_preserves h jobs filters searchQuery sortOption r h' :
  applyFiltersAndSort jobs filters searchQuery sortOption h = (r, h') ->
  extends h h' /\ forall out, r = Val out -> out ∉ dom (arrays h).
Proof.
  unfold applyFiltersAndSort. unfold bind at 1.
  destruct (spread jobs h) as [[a|e] h0] eqn:Hspread.
  - destruct (spread_preserves _ _ _ _ Hspread) as [Hext Hfresh].
    specialize (Hfresh a eq_refl).
    assert (Hrest : preserves h (fun a =>
      let* a := runStage (searchStage searchQuery) a in
      let* a := runStage (companyStage filters) a in
      let* a := runStage (locationStage filters) a in
      let* a := runStage (departmentStage filters) a in
      let* a := runStage (remoteStage filters) a in
      let* a := runStage (salaryStage filters) a in
      let* a := sortStage sortOption a in
      ret a)).
    { repeat (apply bind_preserves; [apply runStage_preserves|]).
      apply bind_preserves; [apply sortStage_preserves|apply ret_preserves]. }
    exact (Hrest h0 a r h' Hext Hfresh).
  - intros [= <- <-]. destruct (spread_preserves _ _ _ _ Hspread) as [Hext _].
    split; [exact Hext|discriminate].
Qed.

(** What the effect leaves on the documented domain. *)
Lemma filterEffect_holds s h xs :
  complete (App.selectedFilters s) ->
  arrays h !! App.jobs s = Some xs -> typed_jobs (objects h) xs ->
  exists out h',
    filterEffect s h = (Val (App.setFilteredJobs out s), h') /\
    extends h h' /\
    arrays h' !! out =
    Some (sortedBy (App.sortOption s) (objects h)
            (passing (objects h)
               (filterStages (App.selectedFilters s) (App.searchQuery s)) xs)).
Proof.
  intros Hcomplete Hjobs Hty. unfold filterEffect.
  rewrite hasActiveFilters_complete by done.
  destruct (existsb active _ || truthy (App.sortOption s)) eqn:Hactive.
  - destruct (applyFiltersAndSort_holds h (App.jobs s) (App.selectedFilters s)
                (App.searchQuery s) (App.sortOption s) xs Hjobs Hty)
      as (out & h' & Hrun & Hext & _ & Hout).
    exists out, h'. unfold bind. rewrite Hrun.
    split; [reflexivity|]. split; [exact Hext|exact Hout].
  - apply orb_false_iff in Hactive as [Hnone Hsort].
    exists (App.jobs s), h. split; [reflexivity|]. split; [apply extends_refl|].
    rewrite passing_inactive by done.
    destruct (App.sortOption s); [|discriminate]. exact Hjobs.
Qed.

(** X6. The list on display is the output of the engine: on the documented
    domain and with a filter state that has all its properties, the filter
    effect does not throw and leaves in [filteredJobs] an array that holds
    what [applyFiltersAndSort] returns for the current jobs, filters, query
    and sort option, also when it takes the branch that does not call the
    function; it changes no other cell of the state. *)
Theorem effect_displays_engine_output s h xs :
  complete (App.selectedFilters s) ->
  arrays h !! App.jobs s = Some xs -> typed_jobs (objects h) xs ->
  exists s' h' ys,
    filterEffect s h = (Val s', h') /\
    s' = App.setFilteredJobs (App.filteredJobs s') s /\
    arrays h' !! App.filteredJobs s' = Some ys /\
    yields (applyFiltersAndSort (App.jobs s) (App.selectedFilters s)
              (App.searchQuery s) (App.sortOption s)) h ys.
Proof.
  intros Hcomplete Hjobs Hty.
  destruct (filterEffect_holds s h xs Hcomplete Hjobs Hty) as (out & h' & Hrun & _ & Hout).
  eexists _, h', _. split; [exact Hrun|]. split; [reflexivity|].
  split; [exact Hout|]. by apply applyFiltersAndSort_yields.
Qed.

(** X7. The guard of the effect agrees with the guards of the engine: for
    a filter state that has all its properties, [hasActiveFilters] is true
    exactly when one of the six filter statements of [applyFiltersAndSort]
    would run or a sort option is set. *)
Theorem effect_guard_agrees_with_engine filters searchQuery sortOption :
  complete filters ->
  hasActiveFilters filters searchQuery sortOption = Val true <->
  Exists (fun s => active s = true) (filterStages filters searchQuery) \/
  sortOption <> ""%string.
Proof.
  intros Hcomplete. rewrite hasActiveFilters_complete by done.
  assert (Hsort : truthy sortOption = true <-> sortOption <> ""%string)
    by (destruct sortOption; simpl; split; done).
  rewrite <- Hsort, Exists_exists.
  split.
  - intros Hval.
    assert (Hor : existsb active (filterStages filters searchQuery)
                  || truthy sortOption = true) by congruence.
    apply orb_true_iff in Hor as [Hex|Ht]; [left|by right].
    apply existsb_exists in Hex as (st & Hin & Hact).
    exists st. split; [by apply list_elem_of_In|exact Hact].
  - intros [(st & Hin & Hact)|Ht]; f_equal; apply orb_true_iff; [left|by right].
    apply existsb_exists. exists st. split; [by apply list_elem_of_In|exact Hact].
Qed.

(** X8. The effect is less tolerant than the engine: when the filter state
    lacks [companies] (or [locations], [departments] or [salary], the
    properties before it being empty and [remote] false), the effect throws
    a TypeError and leaves the state and the heap as they are, although
    [applyFiltersAndSort], which guards these accesses, returns for the
    same arguments. *)
Theorem effect_throws_on_incomplete_filters s h xs :
  Filters.companies (App.selectedFilters s) = None \/
  Filters.companies (App.selectedFilters s) = Some [] /\
  (Filters.locations (App.selectedFilters s) = None \/
   Filters.locations (App.selectedFilters s) = Some [] /\
   (Filters.departments (App.selectedFilters s) = None \/
    Filters.departments (App.selectedFilters s) = Some [] /\
    Filters.remote (App.selectedFilters s) = false /\
    Filters.salary (App.selectedFilters s) = None)) ->
  arrays h !! App.jobs s = Some xs -> typed_jobs (objects h) xs ->
  filterEffect s h = (Throw TypeError, h) /\
  exists ys,
    yields (applyFiltersAndSort (App.jobs s) (App.selectedFilters s)
              (App.searchQuery s) (App.sortOption s)) h ys.
Proof.
  intros Hmissing Hjobs Hty. split; [|eexists; by apply applyFiltersAndSort_yields].
  unfold filterEffect, hasActiveFilters.
  destruct Hmissing as [-> | [-> [-> | [-> [-> | [-> [-> ->]]]]]]]; reflexivity.
Qed.

(** X9. The effect and the heap: whether it returns or throws, the effect
    leaves the job objects and every array that exists before it,
    [jobs] among them, as they are.  When no filter is active and no sort
    option set, [filteredJobs] becomes the array [jobs] itself and nothing
    is allocated; otherwise it becomes a new array. *)
Theorem effect_keeps_jobs s h :
  let (r, h') := filterEffect s h in
  objects h' = objects h /\
  (forall a, a ∈ dom (arrays h) -> arrays h' !! a = arrays h !! a) /\
  forall s', r = Val s' ->
    s' = App.setFilteredJobs (App.filteredJobs s') s /\
    (hasActiveFilters (App.selectedFilters s) (App.searchQuery s) (App.sortOption s)
       = Val false /\ App.filteredJobs s' = App.jobs s /\ h' = h \/
     hasActiveFilters (App.selectedFilters s) (App.searchQuery s) (App.sortOption s)
       = Val true /\ App.filteredJobs s' ∉ dom (arrays h)).
Proof.
  unfold filterEffect.
  destruct (hasActiveFilters _ _ _) as [[|]|e].
  - unfold bind.
    destruct (applyFiltersAndSort _ _ _ _ h) as [[out|e] h'] eqn:Hrun;
      destruct (applyFiltersAndSort_preserves _ _ _ _ _ _ _ Hrun) as [[Hobj Harr] Hfresh].
    + split; [exact Hobj|]. split; [exact Harr|]. intros s' [= <-].
      split; [reflexivity|]. right. split; [reflexivity|]. by apply Hfresh.
    + split; [exact Hobj|]. split; [exact Harr|]. discriminate.
  - split; [reflexivity|]. split; [reflexivity|]. intros s' [= <-].
    split; [reflexivity|]. left. done.
  - split; [reflexivity|]. split; [reflexivity|]. discriminate.
Qed.

(** X10. Choosing a sort option reorders, it does not filter: after
    [handleSortOptionSelect] and the effect that follows it, the sort menu
    is closed and [filteredJobs] holds a rearrangement of what it held
    after the effect before, so the number of jobs on display is the
    same. *)
Theorem sort_choice_keeps_jobs_on_display s h xs option :
  complete (App.selectedFilters s) ->
  arrays h !! App.jobs s = Some xs -> typed_jobs (objects h) xs ->
  exists s1 h1 ys1 s2 h2 ys2,
    filterEffect s h = (Val s1, h1) /\
    arrays h1 !! App.filteredJobs s1 = Some ys1 /\
    filterEffect (App.handleSortOptionSelect option s1) h1 = (Val s2, h2) /\
    arrays h2 !! App.filteredJobs s2 = Some ys2 /\
    ys2 ≡ₚ ys1 /\ length ys2 = length ys1 /\
    App.sortOption s2 = option /\ App.menuOpen s2 = false.
Proof.
  intros Hcomplete Hjobs Hty.
  destruct (filterEffect_holds s h xs Hcomplete Hjobs Hty)
    as (out1 & h1 & Hrun1 & [Hobj1 Harr1] & Hout1).
  assert (Hjobs1 : arrays h1 !! App.jobs s = Some xs).
  { rewrite Harr1; [exact Hjobs|]. apply elem_of_dom. by rewrite Hjobs. }
  destruct (filterEffect_holds
              (App.handleSortOptionSelect option (App.setFilteredJobs out1 s)) h1 xs)
    as (out2 & h2 & Hrun2 & _ & Hout2); [exact Hcomplete|exact Hjobs1|by rewrite Hobj1|].
  eexists _, h1, _, _, h2, _.
  split; [exact Hrun1|]. split; [exact Hout1|].
  split; [exact Hrun2|]. split; [exact Hout2|].
  assert (Hperm : sortedBy option (objects h1)
                    (passing (objects h1) (filterStages (App.selectedFilters s)
                                             (App.searchQuery s)) xs)
                  ≡ₚ sortedBy (App.sortOption s) (objects h)
                       (passing (objects h) (filterStages (App.selectedFilters s)
                                               (App.searchQuery s)) xs)).
  { rewrite Hobj1. by rewrite !sortedBy_Permutation. }
  split; [exact Hperm|]. split; [by rewrite Hperm|]. by split.
Qed.

(** X11. The clear button of the search bar: it is shown exactly when the
    search filter of the engine is active; pressing it empties the query,
    hides the button and, once the effect has run, [filteredJobs] holds the
    jobs that satisfy the five other filters, whatever the query was. *)
Theorem clearing_the_search_bar s h xs :
  complete (App.selectedFilters s) ->
  arrays h !! App.jobs s = Some xs -> typed_jobs (objects h) xs ->
  SearchBar.clearShown (App.searchQuery s) = active (searchStage (App.searchQuery s)) /\
  exists s' h' ys,
    filterEffect (SearchBar.handleClear App.handleSearchChange s) h = (Val s', h') /\
    SearchBar.clearShown (App.searchQuery s') = false /\
    arrays h' !! App.filteredJobs s' = Some ys /\
    forall l, l ∈ ys <->
      l ∈ xs /\
      Forall (fun st => satisfies (objects h) st l)
        [ companyStage (App.selectedFilters s); locationStage (App.selectedFilters s);
          departmentStage (App.selectedFilters s); remoteStage (App.selectedFilters s);
          salaryStage (App.selectedFilters s) ].
Proof.
  intros Hcomplete Hjobs Hty. split; [reflexivity|].
  destruct (filterEffect_holds (SearchBar.handleClear App.handleSearchChange s) h xs
              Hcomplete Hjobs Hty) as (out & h' & Hrun & _ & Hout).
  eexists _, h', _. split; [exact Hrun|]. split; [reflexivity|].
  split; [exact Hout|].
  intros l. rewrite sortedBy_Permutation, elem_of_passing.
  simpl. unfold filterStages. rewrite Forall_cons.
  assert (Hsearch : satisfies (objects h) (searchStage "") l) by (intros Hact; discriminate).
  tauto.
Qed.

End Component.

(** X12. [loadJobs]: whatever the request settles to, the call leaves
    [loading] false, and the query, the filter state and the sort option
    untouched.  A response with a [jobs] array puts that one array in both
    [jobs] and [filteredJobs] and leaves [error] as it is; any other
    response leaves both lists as they are and sets [error] to "Invalid
    response format"; a rejection with a value other than [null] and
    [undefined] leaves both lists and sets [error] to the [message] of the
    value.  In these cases no exception escapes.  A rejection with [null]
    or [undefined] makes [err.message] throw in the catch block: the
    TypeError escapes, and the lists and [error] are as they were. *)
Theorem loadJobs_settles (fetchJobs : App.settled) (s : App.state) :
  let (r, s') := App.loadJobs fetchJobs s in
  App.loading s' = false /\
  App.searchQuery s' = App.searchQuery s /\
  App.selectedFilters s' = App.selectedFilters s /\
  App.sortOption s' = App.sortOption s /\
  match fetchJobs with
  | App.Fulfilled (Some (App.Response (Some jobs))) =>
      r = inl tt /\
      App.jobs s' = jobs /\ App.filteredJobs s' = jobs /\ App.error s' = App.error s
  | App.Fulfilled _ =>
      r = inl tt /\
      App.jobs s' = App.jobs s /\ App.filteredJobs s' = App.filteredJobs s /\
      App.error s' = Some "Invalid response format"%string
  | App.Rejected (App.Error message) =>
      r = inl tt /\
      App.jobs s' = App.jobs s /\ App.filteredJobs s' = App.filteredJobs s /\
      App.error s' = message
  | App.Rejected App.Nullish =>
      r = inr App.PropertyOfNullish /\
      App.jobs s' = App.jobs s /\ App.filteredJobs s' = App.filteredJobs s /\
      App.error s' = App.error s
  end.
Proof.
  destruct fetchJobs as [[[[jobs|]]|]|[|message]]; repeat split.
Qed.

(** ** The further properties at the sample heap *)

Lemma sample_complete minSalary maxSalary : complete (withRange minSalary maxSalary).
Proof. repeat split; by eexists. Qed.

Lemma unrecognised_sort_keeps_input_order_witness :
  typed_jobs sampleObjects [2; 1; 5]%positive /\
  exists ys,
    yields (applyFiltersAndSort (L := asciiLocale) 1 remoteOnly "" "newest")
      (sampleHeap [2; 1; 5]%positive) ys /\
    ys `sublist_of` [2; 1; 5]%positive /\
    forall l, l ∈ ys <->
      l ∈ [2; 1; 5]%positive /\
      Forall (fun s => satisfies sampleObjects s l)
        (filterStages (L := asciiLocale) remoteOnly "").
Proof.
  assert (Hty : typed_jobs sampleObjects [2; 1; 5]%positive)
    by (apply sample_typed; repeat constructor; lia).
  split; [exact Hty|].
  refine (unrecognised_sort_keeps_input_order (L := asciiLocale)
            (sampleHeap [2; 1; 5]%positive) 1%positive [2; 1; 5]%positive remoteOnly
            "" "newest" _ _ _ eq_refl Hty); discriminate.
Defined.

Lemma applying_twice_changes_nothing_witness :
  typed_jobs sampleObjects [1; 2; 5; 6]%positive /\
  exists out h' ys,
    applyFiltersAndSort (L := asciiLocale) 1 (withRange 0 200000) "" "alphabetical"
      (sampleHeap [1; 2; 5; 6]%positive) = (Val out, h') /\
    arrays h' !! out = Some ys /\
    yields (applyFiltersAndSort (L := asciiLocale) out (withRange 0 200000) ""
              "alphabetical") h' ys.
Proof.
  assert (Hty : typed_jobs sampleObjects [1; 2; 5; 6]%positive)
    by (apply sample_typed; repeat constructor; lia).
  split; [exact Hty|].
  refine (applying_twice_changes_nothing (L := asciiLocale)
            (sampleHeap [1; 2; 5; 6]%positive) 1%positive [1; 2; 5; 6]%positive
            (withRange 0 200000) "" "alphabetical" eq_refl Hty _).
  intros [Hopt|Hopt]; discriminate.
Defined.

Lemma narrower_range_shows_fewer_witness :
  typed_jobs sampleObjects [1; 2; 5; 3]%positive /\
  exists ysA ysB,
    yields (applyFiltersAndSort (L := asciiLocale) 1
              (setRange Filters.default 0 500000) "" "salary-low-high")
      (sampleHeap [1; 2; 5; 3]%positive) ysA /\
    yields (applyFiltersAndSort (L := asciiLocale) 1
              (setRange Filters.default 90000 200000) "" "salary-low-high")
      (sampleHeap [1; 2; 5; 3]%positive) ysB /\
    ysB ⊆+ ysA.
Proof.
  assert (Hty : typed_jobs sampleObjects [1; 2; 5; 3]%positive)
    by (apply sample_typed; repeat constructor; lia).
  split; [exact Hty|].
  refine (narrower_range_shows_fewer (L := asciiLocale)
            (sampleHeap [1; 2; 5; 3]%positive) 1%positive [1; 2; 5; 3]%positive
            Filters.default "" "salary-low-high" 0 500000 90000 200000 _ _ eq_refl Hty);
    lia.
Defined.

Lemma department_filter_needs_department_witness :
  typed_jobs sampleObjects [1; 2]%positive /\
  exists ys,
    yields (applyFiltersAndSort (L := asciiLocale) 1 engineeringOnly "" "")
      (sampleHeap [1; 2]%positive) ys /\
    forall l, l ∈ ys ->
      exists job department,
        sampleObjects !! l = Some job /\ Job.department job = Some department /\
        department <> ""%string /\ department ∈ ["Engineering"%string].
Proof.
  assert (Hty : typed_jobs sampleObjects [1; 2]%positive)
    by (apply sample_typed; repeat constructor; lia).
  split; [exact Hty|].
  refine (department_filter_needs_department (L := asciiLocale)
            (sampleHeap [1; 2]%positive) 1%positive [1; 2]%positive engineeringOnly
            "" "" ["Engineering"%string] eq_refl _ eq_refl Hty).
  discriminate.
Defined.

Lemma effect_displays_engine_output_witness :
  typed_jobs sampleObjects [1; 2]%positive /\
  exists s' h' ys,
    filterEffect (L := asciiLocale) (sampleState (withRange 0 500000) "" "")
      (sampleHeap [1; 2]%positive) = (Val s', h') /\
    s' = App.setFilteredJobs (App.filteredJobs s') (sampleState (withRange 0 500000) "" "") /\
    arrays h' !! App.filteredJobs s' = Some ys /\
    yields (applyFiltersAndSort (L := asciiLocale) 1 (withRange 0 500000) "" "")
      (sampleHeap [1; 2]%positive) ys.
Proof.
  assert (Hty : typed_jobs sampleObjects [1; 2]%positive)
    by (apply sample_typed; repeat constructor; lia).
  split; [exact Hty|].
  exact (effect_displays_engine_output (L := asciiLocale)
           (sampleState (withRange 0 500000) "" "") (sampleHeap [1; 2]%positive)
           [1; 2]%positive (sample_complete 0 500000) eq_refl Hty).
Defined.

Lemma effect_guard_agrees_with_engine_witness :
  hasActiveFilters (withRange 0 499999) "" "" = Val true <->
  Exists (fun s => active s = true)
    (filterStages (L := asciiLocale) (withRange 0 499999) "") \/
  ""%string <> ""%string.
Proof.
  exact (effect_guard_agrees_with_engine (L := asciiLocale) (withRange 0 499999) "" ""
           (sample_complete 0 499999)).
Defined.

Lemma effect_throws_on_incomplete_filters_witness :
  typed_jobs sampleObjects [1; 2]%positive /\
  filterEffect (L := asciiLocale) (sampleState noCompanies "" "")
    (sampleHeap [1; 2]%positive) = (Throw TypeError, sampleHeap [1; 2]%positive) /\
  exists ys,
    yields (applyFiltersAndSort (L := asciiLocale) 1 noCompanies "" "")
      (sampleHeap [1; 2]%positive) ys.
Proof.
  assert (Hty : typed_jobs sampleObjects [1; 2]%positive)
    by (apply sample_typed; repeat constructor; lia).
  split; [exact Hty|].
  exact (effect_throws_on_incomplete_filters (L := asciiLocale)
           (sampleState noCompanies "" "") (sampleHeap [1; 2]%positive) [1; 2]%positive
           (or_introl eq_refl) eq_refl Hty).
Defined.

Lemma sort_choice_keeps_jobs_on_display_witness :
  typed_jobs sampleObjects [1; 2; 5]%positive /\
  exists s1 h1 ys1 s2 h2 ys2,
    filterEffect (L := asciiLocale) (sampleState (withRange 0 200000) "" "")
      (sampleHeap [1; 2; 5]%positive) = (Val s1, h1) /\
    arrays h1 !! App.filteredJobs s1 = Some ys1 /\
    filterEffect (L := asciiLocale) (App.handleSortOptionSelect "alphabetical" s1) h1 =
      (Val s2, h2) /\
    arrays h2 !! App.filteredJobs s2 = Some ys2 /\
    ys2 ≡ₚ ys1 /\ length ys2 = length ys1 /\
    App.sortOption s2 = "alphabetical"%string /\ App.menuOpen s2 = false.
Proof.
  assert (Hty : typed_jobs sampleObjects [1; 2; 5]%positive)
    by (apply sample_typed; repeat constructor; lia).
  split; [exact Hty|].
  exact (sort_choice_keeps_jobs_on_display (L := asciiLocale)
           (sampleState (withRange 0 200000) "" "") (sampleHeap [1; 2; 5]%positive)
           [1; 2; 5]%positive "alphabetical" (sample_complete 0 200000) eq_refl Hty).
Defined.

Lemma clearing_the_search_bar_witness :
  typed_jobs sampleObjects [1; 2]%positive /\
  exists s' h' ys,
    filterEffect (L := asciiLocale)
      (SearchBar.handleClear App.handleSearchChange
         (sampleState (withRange 0 90000) "engineer" ""))
      (sampleHeap [1; 2]%positive) = (Val s', h') /\
    SearchBar.clearShown (App.searchQuery s') = false /\
    arrays h' !! App.filteredJobs s' = Some ys.
Proof.
  assert (Hty : typed_jobs sampleObjects [1; 2]%positive)
    by (apply sample_typed; repeat constructor; lia).
  split; [exact Hty|].
  destruct (clearing_the_search_bar (L := asciiLocale)
              (sampleState (withRange 0 90000) "engineer" "")
              (sampleHeap [1; 2]%positive) [1; 2]%positive
              (sample_complete 0 90000) eq_refl Hty)
    as (_ & s' & h' & ys & Hrun & Hclear & Hys & _).
  by exists s', h', ys.
Defined.

(** ** The component at the sample heap *)

Example sample_effect_without_filters :
  filterEffect (L := asciiLocale) (sampleState Filters.default "" "")
    (sampleHeap [2; 1]%positive) =
  (Val (sampleState Filters.default "" ""), sampleHeap [2; 1]%positive).
Proof. reflexivity. Qed.

Example sample_load_failure :
  App.loadJobs (App.Fulfilled (Some (App.Response None)))
    (sampleState Filters.default "" "") =
  (inl tt,
   App.setError (Some "Invalid response format"%string)
     (sampleState Filters.default "" "")).
Proof. reflexivity. Qed.

(** * The predicates spelt out, and the engines *)

Lemma append_cons c (x y : string) : (String c x ++ y)%string = String c (x ++ y)%string.
Proof. reflexivity. Qed.

Lemma append_nil (y : string) : ("" ++ y)%string = y.
Proof. reflexivity. Qed.

Lemma prefix_spec sub : forall s,
  String.prefix sub s = true <-> exists after, s = (sub ++ after)%string.
Proof.
  induction sub as [|a sub IH]; intros s.
  - split; [by exists s|by destruct s].
  - destruct s as [|b s]; simpl.
    + split; [done|]. by intros [after Hafter].
    + destruct (ascii_dec a b) as [->|Hne].
      * rewrite IH. split; intros [after Hafter]; exists after;
          rewrite append_cons in *; congruence.
      * split; [done|]. intros [after Hafter]. rewrite append_cons in Hafter. congruence.
Qed.

Lemma includes_nil sub : includes "" sub = String.prefix sub "".
Proof. unfold includes. apply orb_false_r. Qed.

Lemma includes_cons c s sub :
  includes (String c s) sub = String.prefix sub (String c s) || includes s sub.
Proof. reflexivity. Qed.

Lemma includes_spec s sub : includes s sub = true <-> substring_of sub s.
Proof.
  unfold substring_of. induction s as [|c s IH].
  - rewrite includes_nil, prefix_spec. split.
    + intros [after Hafter]. by exists ""%string, after.
    + intros ([|b before] & after & Heq); [by exists after|].
      rewrite append_cons in Heq. discriminate.
  - rewrite includes_cons, orb_true_iff, prefix_spec, IH. split.
    + intros [[after Hafter]|(before & after & Heq)].
      * by exists ""%string, after.
      * exists (String c before), after. by rewrite append_cons, Heq.
    + intros ([|b before] & after & Heq).
      * left. by exists after.
      * right. exists before, after. rewrite append_cons in Heq. congruence.
Qed.

Lemma array_includes_spec x v :
  array_includes x v = true <-> exists s, v = Some s /\ s ∈ x.
Proof.
  unfold array_includes. destruct v as [s|].
  - rewrite existsb_exists. split.
    + intros (s' & Hin & Heq). apply String.eqb_eq in Heq as <-.
      exists s. split; [done|]. by apply list_elem_of_In.
    + intros (s' & [= <-] & Hin). exists s.
      split; [by apply list_elem_of_In|apply String.eqb_refl].
  - split; [done|]. by intros (s & Hs & _).
Qed.

Lemma truthy_spec s : truthy s = true <-> s <> ""%string.
Proof. destruct s; simpl; split; done. Qed.

Lemma nonEmpty_spec {A} (x : option (list A)) :
  nonEmpty x = true <-> exists l, x = Some l /\ l <> [].
Proof.
  destruct x as [[|a l]|]; simpl; split; try done.
  - by intros (l & [= <-] & Hl).
  - intros _. by eexists.
  - by intros (l & Hl & _).
Qed.

Lemma parsedSalary_digits (job : Job.t) :
  parsedSalary job =
  match Job.salary job with
  | None => Fin 0
  | Some s =>
      if truthy s then
        if decide (strip_non_digits s = ""%string) then NaN
        else to_double (spec_digits s 0)
      else Fin 0
  end.
Proof.
  unfold parsedSalary. destruct (Job.salary job) as [s|]; [|reflexivity].
  destruct (truthy s); [|reflexivity].
  destruct (decide (strip_non_digits s = ""%string)) as [Hnone|Hsome].
  - by rewrite Hnone.
  - rewrite parseInt_digits by (by apply leading_digits_strip).
    by rewrite decimal_strip.
Qed.

Lemma salary_within_spec minSalary maxSalary job :
  js_ge (parsedSalary job) (Fin minSalary) && js_le (parsedSalary job) (Fin maxSalary) = true
  <-> salary_within minSalary maxSalary job.
Proof.
  rewrite parsedSalary_digits. unfold salary_within, js_ge.
  destruct (Job.salary job) as [s|].
  - destruct (truthy s) eqn:Htruthy.
    + apply truthy_spec in Htruthy.
      destruct (decide (strip_non_digits s = ""%string)) as [Hnone|Hsome].
      * split; [done|].
        intros [[[Hsal|Hsal] _]|(s0 & Hs0 & Hdigits & _)]; [done|congruence|].
        injection Hs0 as <-. contradiction.
      * rewrite andb_true_iff. split.
        -- intros [Hlo Hhi]. right. by exists s.
        -- intros [[[Hsal|Hsal] _]|(s0 & Hs0 & _ & Hlo & Hhi)]; [done|congruence|].
           by injection Hs0 as <-.
    + assert (s = ""%string) as -> by (by destruct s).
      simpl. rewrite andb_true_iff, !Z.leb_le. split.
      * intros [Hlo Hhi]. left. split; [by right|lia].
      * intros [[_ Hrange]|(s0 & Hs0 & Hdigits & _)]; [lia|].
        injection Hs0 as <-. done.
  - simpl. rewrite andb_true_iff, !Z.leb_le. split.
    + intros [Hlo Hhi]. left. split; [by left|lia].
    + intros [[_ Hrange]|(s0 & Hs0 & _)]; [lia|done].
Qed.

Section PredicateFacts.
Context {L : Locale}.

Lemma satisfies_at O s l job :
  O !! l = Some job ->
  satisfies O s l <-> (active s = true -> predicate s job = Val true).
Proof.
  intros Hjob. unfold satisfies. split.
  - intros Hsat Hact. destruct (Hsat Hact) as (job' & Hjob' & Hpred). congruence.
  - intros Hpred Hact. exists job. auto.
Qed.

Lemma searchStage_meets query job :
  typed_job job ->
  (active (searchStage query) = true -> predicate (searchStage query) job = Val true)
  <-> meets_search query job.
Proof.
  intros ([title Ht] & [description Hd] & _).
  unfold searchStage, meets_search, searchPredicate. simpl. rewrite truthy_spec, Ht, Hd.
  apply forall_proper. intros _.
  destruct (includes (toLowerCase title) _) eqn:H1.
  { apply includes_spec in H1. split; [|done]. intros _. left. by exists title. }
  destruct (includes (toLowerCase description) _) eqn:H2.
  { apply includes_spec in H2. split; [|done]. intros _. right. left. by exists description. }
  assert (Hno1 : ~ substring_of (toLowerCase query) (toLowerCase title))
    by (rewrite <- includes_spec; congruence).
  assert (Hno2 : ~ substring_of (toLowerCase query) (toLowerCase description))
    by (rewrite <- includes_spec; congruence).
  destruct (Job.department job) as [department|].
  - split.
    + intros [= Hdep]. apply andb_true_iff in Hdep as [Htruthy Hincl].
      right. right. exists department.
      by rewrite truthy_spec, includes_spec in *.
    + intros [(t & [= <-] & Hsub)|[(d & [= <-] & Hsub)|(dep & [= <-] & Hne & Hsub)]];
        try done.
      f_equal. apply andb_true_iff. by rewrite truthy_spec, includes_spec.
  - split; [done|].
    intros [(t & [= <-] & Hsub)|[(d & [= <-] & Hsub)|(dep & Hdep & _)]]; done.
Qed.

Lemma companyStage_meets filters job :
  (active (companyStage filters) = true -> predicate (companyStage filters) job = Val true)
  <-> spec_company filters job.
Proof.
  unfold companyStage, spec_company, companyPredicate. simpl. rewrite nonEmpty_spec.
  split.
  - intros Hpred companies Hcs Hne.
    assert (Hval : Val (array_includes (default [] (Filters.companies filters))
                          (Job.companyName job)) = Val true) by eauto.
    rewrite Hcs in Hval. simpl in Hval. injection Hval as Hval.
    by apply array_includes_spec.
  - intros Hspec (companies & Hcs & Hne). rewrite Hcs. simpl. f_equal.
    apply array_includes_spec. eauto.
Qed.

Lemma locationStage_meets filters job :
  typed_job job ->
  (active (locationStage filters) = true -> predicate (locationStage filters) job = Val true)
  <-> spec_location filters job.
Proof.
  intros (_ & _ & [location Hloc]).
  unfold locationStage, spec_location, locationPredicate. simpl.
  rewrite nonEmpty_spec, Hloc. split.
  - intros Hpred locations Hls Hne.
    assert (Hval : Val (existsb (fun filterLocation =>
                     includes (toLowerCase location) (toLowerCase filterLocation))
                     (default [] (Filters.locations filters))) = Val true) by eauto.
    rewrite Hls in Hval. simpl in Hval. injection Hval as Hval.
    apply existsb_exists in Hval as (selected & Hin & Hincl).
    exists location, selected. split; [done|]. split; [by apply list_elem_of_In|].
    by apply includes_spec.
  - intros Hspec (locations & Hls & Hne). rewrite Hls. simpl. f_equal.
    destruct (Hspec locations Hls Hne) as (location' & selected & [= <-] & Hin & Hsub).
    apply existsb_exists. exists selected.
    split; [by apply list_elem_of_In|by apply includes_spec].
Qed.

Lemma departmentStage_meets filters job :
  (active (departmentStage filters) = true ->
   predicate (departmentStage filters) job = Val true)
  <-> meets_department filters job.
Proof.
  unfold departmentStage, meets_department, departmentPredicate. simpl.
  rewrite nonEmpty_spec. split.
  - intros Hpred departments Hds Hne.
    assert (Hval : match Job.department job with
                   | Some department =>
                       Val (truthy department &&
                            array_includes (default [] (Filters.departments filters))
                              (Some department))
                   | None => Val false
                   end = Val true) by eauto.
    rewrite Hds in Hval. simpl default in Hval.
    destruct (Job.department job) as [department|]; [|discriminate].
    injection Hval as Hval. apply andb_true_iff in Hval as [Htruthy Hincl].
    exists department. split; [done|]. split; [by apply truthy_spec|].
    change (array_includes departments (Some department) = true) in Hincl.
    apply array_includes_spec in Hincl as (d & [= <-] & Hin). exact Hin.
  - intros Hspec (departments & Hds & Hne). rewrite Hds. simpl default.
    destruct (Hspec departments Hds Hne) as (department & -> & Hnonempty & Hin).
    f_equal. apply andb_true_iff. split; [by apply truthy_spec|].
    apply (array_includes_spec departments (Some department)). eauto.
Qed.

Lemma remoteStage_meets filters job :
  (active (remoteStage filters) = true -> predicate (remoteStage filters) job = Val true)
  <-> spec_remote filters job.
Proof.
  unfold remoteStage, spec_remote, remotePredicate. simpl.
  split; intros Hremote Hactive; [|f_equal]; by (injection (Hremote Hactive) || auto).
Qed.

Lemma salaryStage_meets filters job :
  (active (salaryStage filters) = true -> predicate (salaryStage filters) job = Val true)
  <-> meets_salary filters job.
Proof.
  unfold salaryStage, meets_salary.
  destruct (Filters.salary filters) as [[lo hi]|]; simpl.
  - rewrite orb_true_iff, !Z.ltb_lt. unfold salaryPredicate. split.
    + intros Hpred minSalary maxSalary [= <- <-] Hactive.
      apply salary_within_spec. by injection (Hpred Hactive).
    + intros Hmeets Hactive. f_equal. apply salary_within_spec. by apply Hmeets.
  - split; [|done]. by intros _ minSalary maxSalary.
Qed.

(** On a job of the documented domain the six filter statements accept
    what the predicates, spelt out, describe. *)
Lemma filterStages_meets O filters query l job :
  O !! l = Some job -> typed_job job ->
  Forall (fun s => satisfies O s l) (filterStages filters query) <->
  meets filters query job.
Proof.
  intros Hjob Hty. unfold filterStages, meets.
  rewrite !Forall_cons, Forall_nil, !(satisfies_at O _ l job Hjob).
  rewrite (searchStage_meets query job Hty), companyStage_meets,
    (locationStage_meets filters job Hty), departmentStage_meets, remoteStage_meets,
    salaryStage_meets.
  tauto.
Qed.

End PredicateFacts.

Section ExplicitClaims.
Context {L : Locale}.

(** C1 (amended). Soundness and completeness of the filters: on the
    documented input domain the function returns an array of input jobs,
    none more often than in the input, and a job is in it exactly when it
    is in the input and satisfies every active predicate.  The predicates
    are those of the specification (search in title, description and
    department; company among the selected; a selected location within
    the location; department among the selected; remote) with these
    differences: a department that is the empty string counts as absent;
    the salary-range predicate is active when the lower bound is above 0
    or the upper bound below 500000, and it compares the number that the
    engine parses, so that a non-empty salary without a digit fails it. *)
Theorem filters_keep_the_jobs_that_meet_them h jobs xs filters searchQuery sortOption :
  arrays h !! jobs = Some xs -> typed_jobs (objects h) xs ->
  exists ys,
    yields (applyFiltersAndSort jobs filters searchQuery sortOption) h ys /\
    ys ⊆+ xs /\
    forall l, l ∈ ys <->
      l ∈ xs /\
      exists job, objects h !! l = Some job /\ meets filters searchQuery job.
Proof.
  intros Hjobs Hty. eexists. split; [by apply applyFiltersAndSort_yields|]. split.
  - rewrite sortedBy_Permutation. apply sublist_submseteq, passing_sublist.
  - intros l. rewrite sortedBy_Permutation, elem_of_passing. split.
    + intros [Hl Hsat]. split; [exact Hl|].
      unfold typed_jobs in Hty. rewrite Forall_forall in Hty.
      destruct (Hty l Hl) as (job & Hjob & Htyped).
      exists job. split; [exact Hjob|]. by apply (filterStages_meets (objects h) _ _ l).
    + intros (Hl & job & Hjob & Hmeets). split; [exact Hl|].
      unfold typed_jobs in Hty. rewrite Forall_forall in Hty.
      destruct (Hty l Hl) as (job' & Hjob' & Htyped).
      assert (job' = job) as -> by congruence.
      by apply (filterStages_meets (objects h) _ _ l job).
Qed.

(** With the insertion sort as the sort of the engine, the function with
    the sort as a parameter is [applyFiltersAndSort]. *)
Lemma applyFiltersAndSortOn_sortM jobs filters searchQuery sortOption h :
  applyFiltersAndSortOn sortM jobs filters searchQuery sortOption h =
  applyFiltersAndSort jobs filters searchQuery sortOption h.
Proof. reflexivity. Qed.

End ExplicitClaims.

Lemma filters_keep_the_jobs_that_meet_them_witness :
  typed_jobs sampleObjects [1; 2; 5]%positive /\
  exists ys,
    yields (applyFiltersAndSort (L := asciiLocale) 1 (withRange 90000 500000) "e"
              "salary-high-low")
      (sampleHeap [1; 2; 5]%positive) ys /\
    ys ⊆+ [1; 2; 5]%positive /\
    forall l, l ∈ ys <->
      l ∈ [1; 2; 5]%positive /\
      exists job, sampleObjects !! l = Some job /\
        meets (L := asciiLocale) (withRange 90000 500000) "e" job.
Proof.
  assert (Hty : typed_jobs sampleObjects [1; 2; 5]%positive)
    by (apply sample_typed; repeat constructor; lia).
  split; [exact Hty|].
  exact (filters_keep_the_jobs_that_meet_them (L := asciiLocale)
           (sampleHeap [1; 2; 5]%positive) 1%positive [1; 2; 5]%positive
           (withRange 90000 500000) "e" "salary-high-low" eq_refl Hty).
Defined.

(** C1, as stated, fails with the predicates as the specification words
    them.  Soundness: with the range [0, 600000], which is not the default
    one, the director (salary 700000) is in the output and does not satisfy
    the salary-range predicate.  Completeness: with the range [0, 100000]
    the intern (salary "n/a", read as 0 by the specification) satisfies
    every predicate and is not in the output. *)
Lemma engine_differs_from_the_specified_predicates :
  (yields (applyFiltersAndSort (L := asciiLocale) 1 (withRange 0 600000) "" "")
     (sampleHeap [5]%positive) [5]%positive /\
   sampleObjects !! 5%positive = Some (withSalary "Director" (Some "700000"%string)) /\
   ~ spec_satisfies (L := asciiLocale) (withRange 0 600000) ""
       (withSalary "Director" (Some "700000"%string))) /\
  (sampleObjects !! 3%positive = Some (withSalary "Intern" (Some "n/a"%string)) /\
   spec_satisfies (L := asciiLocale) (withRange 0 100000) ""
     (withSalary "Intern" (Some "n/a"%string)) /\
   yields (applyFiltersAndSort (L := asciiLocale) 1 (withRange 0 100000) "" "")
     (sampleHeap [3]%positive) []).
Proof.
  split; (split; [|split]); try reflexivity.
  - apply yields_compute. vm_compute. reflexivity.
  - intros (_ & _ & _ & _ & _ & Hsalary).
    assert ((0, 600000) <> (0, 500000)) as Hne by discriminate.
    specialize (Hsalary 0 600000 eq_refl Hne).
    vm_compute in Hsalary. destruct Hsalary as [_ Hle]. by apply Hle.
  - split; [intros Hquery; done|].
    split; [intros companies [= <-] Hne; done|].
    split; [intros locations [= <-] Hne; done|].
    split; [intros departments [= <-] Hne; done|].
    split; [discriminate|].
    intros minSalary maxSalary [= <- <-] _. vm_compute. split; discriminate.
  - apply yields_compute. vm_compute. reflexivity.
Qed.

(** C6, as stated, fails when a salary parses to NaN.  The seven jobs have
    the salaries 1, 2, 7, "n/a", 4, 3 and 4; with 'salary-low-high' the
    comparator ties the fourth job with every other, so it is not
    consistent, and the binary insertion of V8 returns the jobs in the
    order 1, 2, 3, 4, 7, "n/a", 4 with the seventh job before the fifth:
    the two jobs with salary 4 have swapped. *)
Lemma equal_salaries_swap_under_binary_insertion :
  typed_jobs tieObjects [1; 2; 3; 4; 5; 6; 7]%positive /\
  yields (applyFiltersAndSort (L := asciiLocale) 1 Filters.default "" "") tieHeap
    [1; 2; 3; 4; 5; 6; 7]%positive /\
  salaryOf tieObjects 4 = NaN /\
  salaryOf tieObjects 5 = Fin 4 /\ salaryOf tieObjects 7 = Fin 4 /\
  yields (applyFiltersAndSortOn (L := asciiLocale) shortArraySort 1 Filters.default ""
            "salary-low-high") tieHeap
    [1; 2; 6; 7; 3; 4; 5]%positive /\
  filter (sameKey (L := asciiLocale) "salary-low-high" tieObjects 5)
    [1; 2; 3; 4; 5; 6; 7]%positive = [5; 7]%positive /\
  filter (sameKey (L := asciiLocale) "salary-low-high" tieObjects 5)
    [1; 2; 6; 7; 3; 4; 5]%positive = [7; 5]%positive.
Proof.
  split.
  { repeat constructor; (eexists; split; [reflexivity|repeat split; eexists; reflexivity]). }
  split; [apply yields_compute; vm_compute; reflexivity|].
  split; [reflexivity|]. split; [reflexivity|]. split; [reflexivity|].
  split; [apply yields_compute; vm_compute; reflexivity|].
  split; vm_compute; reflexivity.
Qed.

(** On the samples without a NaN key both sorts return the same. *)
Example engines_agree_on_sample :
  applyFiltersAndSortOn (L := asciiLocale) shortArraySort 1 Filters.default ""
    "salary-high-low" (sampleHeap [2; 1; 5; 6; 7]%positive) =
  applyFiltersAndSort (L := asciiLocale) 1 Filters.default "" "salary-high-low"
    (sampleHeap [2; 1; 5; 6; 7]%positive).
Proof. vm_compute. reflexivity. Qed.

(** ** Run detection and binary insertion on a consistent comparator

    On elements [D] on which the comparator returns and is a strict weak
    order, [shortArraySort] returns what the stable insertion sort
    returns. *)

Section BinaryInsertion.
Context {A : Type} (ltM : A -> A -> result bool) (lt : A -> A -> bool) (D : A -> Prop).

Local Abbreviation ordered := (StronglySorted (fun a b => lt b a = false)).
Local Abbreviation descending := (StronglySorted (fun a b => lt b a = true)).

Hypothesis ltM_lt : forall x y, D x -> D y -> ltM x y = Val (lt x y).
Hypothesis lt_irrefl : forall a, lt a a = false.
Hypothesis lt_trans : forall a b c, lt a b = true -> lt b c = true -> lt a c = true.
Hypothesis lt_weak : forall a b c, D a -> D b -> D c ->
  lt a b = false -> lt b c = false -> lt a c = false.

Lemma insert_by_at x l1 l2 :
  Forall (fun y => lt x y = false) l1 -> Forall (fun y => lt x y = true) l2 ->
  insert_by lt x (l1 ++ l2) = l1 ++ x :: l2.
Proof.
  intros H1 H2. induction H1 as [|y l1 Hy _ IH]; simpl.
  - destruct H2 as [|y l2 Hy _]; simpl; [reflexivity|by rewrite Hy].
  - by rewrite Hy, IH.
Qed.

(** The binary search returns the position after the elements that the
    pivot is not less than. *)
Lemma binarySearch_spec pivot run :
  ordered run -> D pivot -> Forall D run ->
  forall fuel left right,
    (left <= right <= length run)%nat -> (right - left < fuel)%nat ->
    Forall (fun y => lt pivot y = false) (take left run) ->
    Forall (fun y => lt pivot y = true) (drop right run) ->
    exists position,
      binarySearch ltM fuel pivot run left right = Val position /\
      Forall (fun y => lt pivot y = false) (take position run) /\
      Forall (fun y => lt pivot y = true) (drop position run).
Proof.
  intros Hord Hpivot HD. induction fuel as [|fuel IH];
    intros left right Hlr Hfuel Hleft Hright; [lia|].
  cbn [binarySearch]. destruct (Nat.ltb left right) eqn:Hlt.
  - apply Nat.ltb_lt in Hlt.
    assert (Hhalf : (Nat.div (right - left) 2 < right - left)%nat)
      by (apply Nat.div_lt; lia).
    set (mid := (left + Nat.div (right - left) 2)%nat) in *.
    assert (Hmid : (left <= mid < right)%nat) by (subst mid; lia).
    destruct (lookup_lt_is_Some_2 run mid) as [y Hy]; [lia|]. rewrite Hy.
    assert (Hdy : D y) by (by eapply Forall_lookup_1).
    rewrite ltM_lt by done. simpl.
    pose proof (take_drop_middle run mid y Hy) as Hsplit.
    assert (Hparts : (forall z, z ∈ take mid run -> lt y z = false) /\
                     (forall z, z ∈ drop (S mid) run -> lt z y = false)).
    { rewrite <- Hsplit in Hord. apply StronglySorted_app in Hord as (Hcross & _ & Hafter).
      apply StronglySorted_cons in Hafter as [Hafter _]. rewrite Forall_forall in Hafter.
      split; [|exact Hafter]. intros z Hz. apply (Hcross z y Hz). left. }
    destruct Hparts as [Hbefore Hafter].
    assert (Hin : forall z, z ∈ run -> D z) by (by apply Forall_forall).
    destruct (lt pivot y) eqn:Hless.
    + apply IH; [lia|lia|exact Hleft|].
      rewrite (drop_S run y mid Hy). constructor; [exact Hless|].
      rewrite Forall_forall. intros z Hz.
      destruct (lt pivot z) eqn:Hpz; [reflexivity|].
      assert (Hdz : D z) by (apply Hin; rewrite <- Hsplit, elem_of_app, elem_of_cons; auto).
      rewrite (lt_weak pivot z y Hpivot Hdz Hdy Hpz (Hafter z Hz)) in Hless. discriminate.
    + apply IH; [lia|lia| |exact Hright].
      rewrite (take_S_r run mid y Hy). apply Forall_app. split; [|by constructor].
      rewrite Forall_forall. intros z Hz.
      assert (Hdz : D z) by (apply Hin; rewrite <- Hsplit, elem_of_app; auto).
      exact (lt_weak pivot y z Hpivot Hdy Hdz Hless (Hbefore z Hz)).
  - apply Nat.ltb_ge in Hlt. assert (left = right) as -> by lia.
    exists right. by split.
Qed.

Lemma binaryInsert_pure pivot run :
  ordered run -> D pivot -> Forall D run ->
  binaryInsert ltM pivot run = Val (insert_by lt pivot run).
Proof.
  intros Hord Hpivot HD. unfold binaryInsert.
  destruct (binarySearch_spec pivot run Hord Hpivot HD (S (length run)) 0 (length run))
    as (position & -> & Hbefore & Hafter); [lia|lia|by rewrite take_0|by rewrite drop_ge|].
  simpl. rewrite <- (take_drop position run) at 3.
  by rewrite insert_by_at.
Qed.

Lemma binaryInsertionSort_pure rest : forall run,
  ordered run -> Forall D run -> Forall D rest ->
  binaryInsertionSort ltM run rest = Val (isort_from lt run rest).
Proof.
  induction rest as [|pivot rest IH]; intros run Hord Hrun Hrest; [reflexivity|].
  apply Forall_cons in Hrest as [Hpivot Hrest].
  simpl. rewrite binaryInsert_pure by done. simpl.
  apply IH; [by apply insert_by_ordered| |exact Hrest].
  rewrite Forall_forall. intros z Hz.
  rewrite insert_by_Permutation in Hz. revert z Hz. apply Forall_forall. by constructor.
Qed.

Lemma continueRun_ascending l : forall previous,
  D previous -> Forall D l ->
  exists run rest,
    continueRun ltM false previous l = Val (run, rest) /\
    l = run ++ rest /\ ordered (previous :: run).
Proof.
  induction l as [|current l IH]; intros previous Hprevious Hl.
  - exists [], []. repeat split. repeat constructor.
  - apply Forall_cons in Hl as [Hcurrent Hl].
    simpl. rewrite ltM_lt by done. simpl.
    destruct (lt current previous) eqn:Hless; simpl.
    + exists [], (current :: l). repeat split. repeat constructor.
    + destruct (IH current Hcurrent Hl) as (run & rest & -> & -> & Hord).
      exists (current :: run), rest. repeat split.
      apply StronglySorted_cons. split; [|exact Hord].
      apply StronglySorted_cons in Hord as [Hrun _].
      constructor; [exact Hless|].
      rewrite Forall_forall in Hrun |- *. intros z Hz.
      apply (lt_weak z current previous); [|done|done|by apply Hrun|done].
      rewrite Forall_forall in Hl. apply Hl. rewrite elem_of_app. by left.
Qed.

Lemma continueRun_descending l : forall previous,
  D previous -> Forall D l ->
  exists run rest,
    continueRun ltM true previous l = Val (run, rest) /\
    l = run ++ rest /\ descending (previous :: run).
Proof.
  induction l as [|current l IH]; intros previous Hprevious Hl.
  - exists [], []. repeat split. repeat constructor.
  - apply Forall_cons in Hl as [Hcurrent Hl].
    simpl. rewrite ltM_lt by done. simpl.
    destruct (lt current previous) eqn:Hless; simpl.
    + destruct (IH current Hcurrent Hl) as (run & rest & -> & -> & Hord).
      exists (current :: run), rest. repeat split.
      apply StronglySorted_cons. split; [|exact Hord].
      apply StronglySorted_cons in Hord as [Hrun _].
      constructor; [exact Hless|].
      rewrite Forall_forall in Hrun |- *. intros z Hz.
      apply (lt_trans z current previous); [by apply Hrun|done].
    + exists [], (current :: l). repeat split. repeat constructor.
Qed.

(** Insertion sort turns a strictly descending list around. *)
Lemma isort_from_descending l : forall acc,
  descending l -> (forall x a, x ∈ l -> a ∈ acc -> lt x a = true) ->
  isort_from lt acc l = reverse l ++ acc.
Proof.
  induction l as [|x l IH]; intros acc Hl Hacc; [reflexivity|].
  apply StronglySorted_cons in Hl as [Hx Hl]. rewrite Forall_forall in Hx.
  change (isort_from lt acc (x :: l)) with (isort_from lt (insert_by lt x acc) l).
  assert (insert_by lt x acc = x :: acc) as ->.
  { destruct acc as [|a acc]; [reflexivity|]. simpl.
    rewrite (Hacc x a); [reflexivity|left|left]. }
  rewrite IH, reverse_cons, <- app_assoc; [reflexivity|exact Hl|].
  intros z a Hz Ha. apply elem_of_cons in Ha as [->|Ha]; [by apply Hx|].
  apply Hacc; [by right|exact Ha].
Qed.

Lemma isort_from_app acc l1 l2 :
  isort_from lt acc (l1 ++ l2) = isort_from lt (isort_from lt acc l1) l2.
Proof. apply fold_left_app. Qed.

Lemma countAndMakeRun_pure l :
  Forall D l ->
  exists run rest,
    countAndMakeRun ltM l = Val (run, rest) /\
    ordered run /\ run ++ rest ≡ₚ l /\ isort_from lt run rest = isort lt l.
Proof.
  intros Hl. destruct l as [|x0 [|x1 l]].
  - exists [], []. split; [reflexivity|]. split; [constructor|]. by split.
  - exists [x0], []. split; [reflexivity|]. split; [repeat constructor|]. by split.
  - apply Forall_cons in Hl as [H0 Hl]. apply Forall_cons in Hl as [H1 Hl].
    simpl. rewrite ltM_lt by done. simpl.
    destruct (lt x1 x0) eqn:Hless.
    + destruct (continueRun_descending l x1 H1 Hl) as (run & rest & -> & -> & Hrun).
      simpl. eexists _, _. split; [reflexivity|].
      assert (Hwhole : descending (x0 :: x1 :: run)).
      { apply StronglySorted_cons. split; [|exact Hrun].
        apply StronglySorted_cons in Hrun as [Hrun _].
        constructor; [exact Hless|].
        rewrite Forall_forall in Hrun |- *. intros z Hz.
        apply (lt_trans z x1 x0); [by apply Hrun|done]. }
      assert (Hsort : isort lt (x0 :: x1 :: run) = reverse (x0 :: x1 :: run)).
      { unfold isort. rewrite isort_from_descending, app_nil_r; [reflexivity|exact Hwhole|].
        intros x a _ Ha. by apply elem_of_nil in Ha. }
      split; [rewrite <- Hsort; by apply isort_ordered|]. split.
      * by rewrite reverse_Permutation.
      * rewrite <- Hsort. unfold isort.
        change (x0 :: x1 :: run ++ rest) with ((x0 :: x1 :: run) ++ rest).
        by rewrite isort_from_app.
    + destruct (continueRun_ascending l x1 H1 Hl) as (run & rest & -> & -> & Hrun).
      simpl. eexists _, _. split; [reflexivity|].
      assert (Hwhole : ordered (x0 :: x1 :: run)).
      { apply StronglySorted_cons. split; [|exact Hrun].
        apply StronglySorted_cons in Hrun as [Hrun _].
        constructor; [exact Hless|].
        rewrite Forall_forall in Hrun |- *. intros z Hz.
        apply (lt_weak z x1 x0); [|done|done|by apply Hrun|done].
        rewrite Forall_forall in Hl. apply Hl. rewrite elem_of_app. by left. }
      split; [exact Hwhole|]. split; [reflexivity|].
      unfold isort.
      change (x0 :: x1 :: run ++ rest) with ((x0 :: x1 :: run) ++ rest).
      rewrite isort_from_app. f_equal. symmetry.
      by apply (isort_from_ordered_input lt _ []).
Qed.

Lemma shortArraySort_pure l :
  Forall D l -> shortArraySort ltM l = Val (isort lt l).
Proof.
  intros Hl. unfold shortArraySort.
  destruct (countAndMakeRun_pure l Hl) as (run & rest & -> & Hord & Hperm & <-).
  simpl. rewrite <- Hperm in Hl. apply Forall_app in Hl as [Hrun Hrest].
  by apply binaryInsertionSort_pure.
Qed.

End BinaryInsertion.

Lemma js_lt_weak a b c :
  b <> NaN -> js_lt a b = false -> js_lt b c = false -> js_lt a c = false.
Proof.
  destruct a, b, c; simpl; try congruence.
  rewrite !Z.ltb_ge. lia.
Qed.

Section EngineOn.
Context {L : Locale}.

Lemma array_sort_on_holds (sort : sorter) h0 h cmp lt a ys :
  sort (less_at cmp (objects h0)) ys = Val (isort lt ys) ->
  holds h0 h a ys ->
  exists h', array_sort_on sort cmp a h = (Val a, h') /\ holds h0 h' a (isort lt ys).
Proof.
  intros Hsort ((Hobj & Harr) & Ha & Hys). unfold array_sort_on.
  rewrite Hys, Hobj, Hsort.
  eexists. split; [reflexivity|]. split; [split|split]; simpl.
  - reflexivity.
  - intros b Hb. rewrite lookup_insert_ne; [by apply Harr|].
    intros ->. contradiction.
  - exact Ha.
  - apply lookup_insert_eq.
Qed.

Lemma lessTitle_weak `{!ConsistentComparator localeCompare} O a b c :
  lessTitle O a b = false -> lessTitle O b c = false -> lessTitle O a c = false.
Proof.
  unfold lessTitle. rewrite !Z.ltb_ge.
  generalize (titleOf O a), (titleOf O b), (titleOf O c). intros ta tb tc Hab Hbc.
  destruct (Z.le_gt_cases 0 (localeCompare ta tc)) as [H|Hac]; [exact H|].
  destruct (Z.eq_dec (localeCompare ta tb) 0) as [Hab0|Hab0].
  - pose proof (cmp_eq_lt localeCompare ta tb tc Hab0 Hac). lia.
  - assert (Hba : localeCompare tb ta < 0) by (apply (cmp_gt_lt localeCompare); lia).
    destruct (Z.eq_dec (localeCompare tb tc) 0) as [Hbc0|Hbc0].
    + pose proof (cmp_eq_lt localeCompare tb tc ta Hbc0 Hba) as Hca.
      pose proof (cmp_trans_lt ta tc ta Hac Hca). pose proof (cmp_refl ta). lia.
    + assert (Hcb : localeCompare tc tb < 0) by (apply (cmp_gt_lt localeCompare); lia).
      pose proof (cmp_trans_lt ta tc tb Hac Hcb). lia.
Qed.

(** On a consistent comparator the two sorts return the same. *)
Lemma shortArraySort_byTitle `{!ConsistentComparator localeCompare} O ys :
  typed_jobs O ys ->
  shortArraySort (less_at byTitle O) ys = Val (isort (lessTitle O) ys).
Proof.
  intros Hty.
  apply (shortArraySort_pure _ _ (fun l => exists job, O !! l = Some job /\ typed_job job)).
  - intros x y Hx Hy. apply less_at_byTitle. by repeat constructor.
  - intros a. unfold lessTitle. rewrite cmp_refl. reflexivity.
  - intros a b c. unfold lessTitle. rewrite !Z.ltb_lt. apply cmp_trans_lt.
  - intros a b c _ _ _. apply lessTitle_weak.
  - exact Hty.
Qed.

Lemma typed_numeric O ys :
  typed_jobs O ys -> Forall (fun l => salaryOf O l <> NaN) ys ->
  Forall (fun l => (exists job, O !! l = Some job /\ typed_job job) /\ salaryOf O l <> NaN) ys.
Proof.
  unfold typed_jobs. rewrite !Forall_forall. intros Hty Hnum l Hl. split; auto.
Qed.

Lemma shortArraySort_bySalaryHighLow O ys :
  typed_jobs O ys -> Forall (fun l => salaryOf O l <> NaN) ys ->
  shortArraySort (less_at bySalaryHighLow O) ys = Val (isort (lessHighLow O) ys).
Proof.
  intros Hty Hnum.
  apply (shortArraySort_pure _ _
           (fun l => (exists job, O !! l = Some job /\ typed_job job) /\ salaryOf O l <> NaN)).
  - intros x y [Hx _] [Hy _]. apply less_at_bySalaryHighLow. by repeat constructor.
  - intros a. rewrite lessHighLow_lt. apply js_lt_irrefl.
  - intros a b c. rewrite !lessHighLow_lt. intros H1 H2.
    by apply js_lt_trans with (salaryOf O b).
  - intros a b c _ [_ Hb] _. rewrite !lessHighLow_lt. intros H1 H2.
    by apply js_lt_weak with (salaryOf O b).
  - by apply typed_numeric.
Qed.

Lemma shortArraySort_bySalaryLowHigh O ys :
  typed_jobs O ys -> Forall (fun l => salaryOf O l <> NaN) ys ->
  shortArraySort (less_at bySalaryLowHigh O) ys = Val (isort (lessLowHigh O) ys).
Proof.
  intros Hty Hnum.
  apply (shortArraySort_pure _ _
           (fun l => (exists job, O !! l = Some job /\ typed_job job) /\ salaryOf O l <> NaN)).
  - intros x y [Hx _] [Hy _]. apply less_at_bySalaryLowHigh. by repeat constructor.
  - intros a. rewrite lessLowHigh_lt. apply js_lt_irrefl.
  - intros a b c. rewrite !lessLowHigh_lt. intros H1 H2.
    by apply js_lt_trans with (salaryOf O b).
  - intros a b c _ [_ Hb] _. rewrite !lessLowHigh_lt. intros H1 H2.
    by apply js_lt_weak with (salaryOf O b).
  - by apply typed_numeric.
Qed.

Lemma sortStageOn_holds `{!ConsistentComparator localeCompare} e h0 h sortOption a ys :
  typed_jobs (objects h0) ys ->
  (sortOption = "salary-high-low"%string \/ sortOption = "salary-low-high"%string ->
   Forall (fun l => salaryOf (objects h0) l <> NaN) ys) ->
  holds h0 h a ys ->
  exists h', sortStageOn (sortOf e) sortOption a h = (Val a, h') /\
    holds h0 h' a (sortedBy sortOption (objects h0) ys).
Proof.
  intros Hty Hnum Hholds. destruct e; [by apply sortStage_holds|].
  unfold sortStageOn, sortedBy, sortOf.
  destruct (String.eqb sortOption "alphabetical") eqn:H1.
  { apply String.eqb_eq in H1 as ->. simpl.
    apply array_sort_on_holds; [by apply shortArraySort_byTitle|exact Hholds]. }
  destruct (String.eqb sortOption "salary-high-low") eqn:H2.
  { apply String.eqb_eq in H2 as ->. simpl.
    apply array_sort_on_holds; [apply shortArraySort_bySalaryHighLow; auto|exact Hholds]. }
  destruct (String.eqb sortOption "salary-low-high") eqn:H3.
  { apply String.eqb_eq in H3 as ->. simpl.
    apply array_sort_on_holds; [apply shortArraySort_bySalaryLowHigh; auto|exact Hholds]. }
  exists h. split; [by destruct (truthy sortOption)|exact Hholds].
Qed.

Lemma applyFiltersAndSortOn_in_order sort jobs filters searchQuery sortOption h :
  applyFiltersAndSortOn sort jobs filters searchQuery sortOption h =
  (let* filteredJobs := spread jobs in
   let* filteredJobs := runStages (filterStages filters searchQuery) filteredJobs in
   let* filteredJobs := sortStageOn sort sortOption filteredJobs in
   ret filteredJobs) h.
Proof.
  unfold applyFiltersAndSortOn, filterStages, runStages, bind.
  destruct (spread jobs h) as [[a|e] h0]; [|reflexivity].
  repeat match goal with
         | |- context [runStage ?s ?a ?h] => destruct (runStage s a h) as [[?|?] ?]
         end; reflexivity.
Qed.

(** What the function returns with either sort on the documented domain,
    when no filtered salary is NaN under a salary option: what it returns
    with the stable insertion sort. *)
Lemma applyFiltersAndSortOn_yields `{!ConsistentComparator localeCompare}
    e h jobs filters searchQuery sortOption xs :
  arrays h !! jobs = Some xs -> typed_jobs (objects h) xs ->
  (sortOption = "salary-high-low"%string \/ sortOption = "salary-low-high"%string ->
   Forall (fun l => salaryOf (objects h) l <> NaN)
     (passing (objects h) (filterStages filters searchQuery) xs)) ->
  yields (applyFiltersAndSortOn (sortOf e) jobs filters searchQuery sortOption) h
    (sortedBy sortOption (objects h)
       (passing (objects h) (filterStages filters searchQuery) xs)).
Proof.
  intros Hjobs Hty Hnum. unfold yields. rewrite applyFiltersAndSortOn_in_order.
  unfold bind at 1, spread. rewrite Hjobs.
  destruct (alloc_holds h h xs (extends_refl h)) as (a0 & h0 & -> & Hholds0).
  unfold bind at 1.
  destruct (runStages_holds h (filterStages filters searchQuery) h0 a0 xs
              (filterStages_total filters searchQuery) Hty Hholds0)
    as (a1 & h1 & -> & Hholds1).
  unfold bind.
  destruct (sortStageOn_holds e h h1 sortOption a1 _
              (typed_jobs_passing _ (filterStages filters searchQuery) _ Hty) Hnum Hholds1)
    as (h2 & -> & (_ & _ & Hys)).
  by exists a1, h2.
Qed.

(** C6 (amended). With 'alphabetical' the output is the filtered list put in
    ascending order of title under [localeCompare], and every sort option
    is stable: the jobs with the sort key of any one job are in the output
    in their filtered order.  This holds for either sort, the stable
    insertion and the run detection with binary insertion of V8.
    [localeCompare] is a consistent comparator, as ECMA-262 requires of it.
    For the two salary options the statement is for filtered lists in which
    no salary parses to NaN: with such a salary the comparator is not
    consistent, ECMAScript leaves the order to the engine, and jobs with
    one salary can swap ([equal_salaries_swap_under_binary_insertion]). *)
Theorem alphabetical_order_and_stability `{!ConsistentComparator localeCompare}
    (e : engine) h jobs xs filters searchQuery :
  arrays h !! jobs = Some xs -> typed_jobs (objects h) xs ->
  (exists ys,
     yields (applyFiltersAndSortOn (sortOf e) jobs filters searchQuery "alphabetical") h ys /\
     ys ≡ₚ passing (objects h) (filterStages filters searchQuery) xs /\
     StronglySorted
       (fun x y => localeCompare (titleOf (objects h) x) (titleOf (objects h) y) <= 0)
       ys) /\
  (forall sortOption,
     (sortOption = "salary-high-low"%string \/ sortOption = "salary-low-high"%string ->
      Forall (fun l => salaryOf (objects h) l <> NaN)
        (passing (objects h) (filterStages filters searchQuery) xs)) ->
     exists ys,
       yields (applyFiltersAndSortOn (sortOf e) jobs filters searchQuery sortOption) h ys /\
       forall x,
         filter (sameKey sortOption (objects h) x) ys =
         filter (sameKey sortOption (objects h) x)
           (passing (objects h) (filterStages filters searchQuery) xs)).
Proof.
  intros Hjobs Hty. split.
  - eexists. split.
    { apply applyFiltersAndSortOn_yields; [done..|]. intros [H|H]; discriminate. }
    split; [apply sortedBy_Permutation|].
    change (sortedBy "alphabetical" (objects h) ?ys)
      with (isort (lessTitle (objects h)) ys).
    apply isort_lessTitle_ordered.
  - intros sortOption Hnum. eexists.
    split; [by apply applyFiltersAndSortOn_yields|].
    intros x. apply sortedBy_stable.
Qed.

End EngineOn.

Lemma alphabetical_order_and_stability_witness :
  typed_jobs sampleObjects [1; 6; 2; 5; 7]%positive /\
  (forall sortOption : string,
     sortOption = "salary-high-low"%string \/ sortOption = "salary-low-high"%string ->
     Forall (fun l => salaryOf sampleObjects l <> NaN)
       (passing sampleObjects (filterStages (L := asciiLocale) Filters.default "")
          [1; 6; 2; 5; 7]%positive)) /\
  (exists ys,
     yields (applyFiltersAndSortOn (L := asciiLocale) shortArraySort 1 Filters.default ""
               "alphabetical")
       (sampleHeap [1; 6; 2; 5; 7]%positive) ys /\
     ys ≡ₚ passing sampleObjects
             (filterStages (L := asciiLocale) Filters.default "") [1; 6; 2; 5; 7]%positive /\
     StronglySorted
       (fun x y => codeUnitCompare (titleOf sampleObjects x) (titleOf sampleObjects y) <= 0)
       ys) /\
  (exists ys,
     yields (applyFiltersAndSortOn (L := asciiLocale) shortArraySort 1 Filters.default ""
               "salary-low-high")
       (sampleHeap [1; 6; 2; 5; 7]%positive) ys /\
     forall x,
       filter (sameKey (L := asciiLocale) "salary-low-high" sampleObjects x) ys =
       filter (sameKey (L := asciiLocale) "salary-low-high" sampleObjects x)
         (passing sampleObjects (filterStages (L := asciiLocale) Filters.default "")
            [1; 6; 2; 5; 7]%positive)).
Proof.
  assert (Hty : typed_jobs sampleObjects [1; 6; 2; 5; 7]%positive)
    by (apply sample_typed; repeat constructor; lia).
  assert (Hnum : forall sortOption : string,
            sortOption = "salary-high-low"%string \/ sortOption = "salary-low-high"%string ->
            Forall (fun l => salaryOf sampleObjects l <> NaN)
              (passing sampleObjects (filterStages (L := asciiLocale) Filters.default "")
                 [1; 6; 2; 5; 7]%positive))
    by (intros sortOption _; repeat constructor; discriminate).
  split; [exact Hty|]. split; [exact Hnum|].
  destruct (alphabetical_order_and_stability (L := asciiLocale) RunAndBinaryInsertion
              (sampleHeap [1; 6; 2; 5; 7]%positive) 1%positive [1; 6; 2; 5; 7]%positive
              Filters.default "" eq_refl Hty) as [Halpha Hstable].
  split; [exact Halpha|].
  exact (Hstable "salary-low-high"%string (Hnum "salary-low-high"%string)).
Defined.
